(** * Joker catalogue audit: canonical names, duplicates and missing entries

    A shallow embedding of the audit scripts [find_missing.py] and
    [missing_jokers_analysis.py].  Both scripts read the registration macro
    of [core/src/joker.rs] and the table rows of [JOKERS.md], turn every
    display name into the identifier convention of the implementation and
    report the names that have no implementation; the second script also
    reports names listed more than once. *)

From Stdlib Require Import String Ascii DecimalString.
From Stdlib Require Import List NArith Bool Arith Lia.
From Stdlib Require Import Sorted Permutation.
Import ListNotations.

Set Implicit Arguments.

(** ** Python strings

    A [str] is a sequence of Unicode code points.  Literals of the source
    that are pure ASCII are written [py "..."]. *)

Definition str := list N.

Definition py (s : string) : str := map N_of_ascii (list_ascii_of_string s).

Fixpoint str_eqb (a b : str) : bool :=
  match a, b with
  | [], [] => true
  | x :: a', y :: b' => N.eqb x y && str_eqb a' b'
  | _, _ => false
  end.

(** Lexicographic order on code points, the order [sorted] uses on [str]. *)
Fixpoint str_leb (a b : str) : bool :=
  match a, b with
  | [], _ => true
  | _ :: _, [] => false
  | x :: a', y :: b' => if N.ltb x y then true else if N.ltb y x then false else str_leb a' b'
  end.

Fixpoint drop_while (p : N -> bool) (s : str) : str :=
  match s with
  | [] => []
  | c :: r => if p c then drop_while p r else s
  end.

Fixpoint take_while (p : N -> bool) (s : str) : str :=
  match s with
  | [] => []
  | c :: r => if p c then c :: take_while p r else []
  end.

(** ASCII character classes, as the patterns [[A-Z]] and [[a-zA-Z0-9]] spell
    them out. *)
Definition is_upper (c : N) : bool := (65 <=? c)%N && (c <=? 90)%N.
Definition is_lower (c : N) : bool := (97 <=? c)%N && (c <=? 122)%N.
Definition is_digit (c : N) : bool := (48 <=? c)%N && (c <=? 57)%N.
Definition is_alnum (c : N) : bool := is_lower c || is_upper c || is_digit c.
Definition is_ascii (c : N) : bool := (c <? 128)%N.

Definition ascii_tolower (c : N) : N := if is_upper c then (c + 32)%N else c.
Definition ascii_toupper (c : N) : N := if is_lower c then (c - 32)%N else c.
Definition ascii_isspace (c : N) : bool :=
  ((9 <=? c)%N && (c <=? 13)%N) || ((28 <=? c)%N && (c <=? 32)%N).

(** ** The Unicode character database

    [str.split], [str.strip], [str.lower], [str.capitalize] and the classes
    [\s] and [\d] consult the character database of the interpreter, which
    is not part of the scripts.  The model takes it as an interface. *)
Class Unicode := {
  isspace : N -> bool;          (* Py_UNICODE_ISSPACE: str.isspace, \s *)
  isdecimal : N -> bool;        (* Py_UNICODE_ISDECIMAL: \d *)
  tolower_full : N -> str;      (* full lower-case mapping of one character *)
  totitle_full : N -> str;      (* full capital mapping, which capitalize gives the first character *)
  iscased : N -> bool;
  iscaseignorable : N -> bool
}.

(** The database restricted to ASCII: every character outside ASCII is
    caseless and is neither a space nor a digit. *)
Definition ascii_db : Unicode := {|
  isspace := ascii_isspace;
  isdecimal := is_digit;
  tolower_full := fun c => [ascii_tolower c];
  totitle_full := fun c => [ascii_toupper c];
  iscased := fun c => is_upper c || is_lower c;
  iscaseignorable := fun c => existsb (N.eqb c) [39; 46; 58; 94; 96]%N
|}.

Section StringMethods.
Context {U : Unicode}.

(** [s.replace(old, new)] for a one-character [old], the only form the
    scripts call. *)
Fixpoint replace (old : N) (new : str) (s : str) : str :=
  match s with
  | [] => []
  | c :: r => (if N.eqb c old then new else [c]) ++ replace old new r
  end.

(** [s.split()]: the maximal runs of non-space characters, left to right.
    [cur] holds the run being read, last character first. *)
Fixpoint split_from (cur : str) (s : str) : list str :=
  match s with
  | [] => match cur with [] => [] | _ => [rev cur] end
  | c :: r =>
      if isspace c
      then match cur with [] => split_from [] r | _ => rev cur :: split_from [] r end
      else split_from (c :: cur) r
  end.

Definition split (s : str) : list str := split_from [] s.

(** [s.strip()] *)
Definition strip (s : str) : str :=
  rev (drop_while isspace (rev (drop_while isspace s))).

(** Lower-casing of U+03A3 depends on its neighbours: the final form
    U+03C2 is chosen after a cased letter and not before one, skipping
    case-ignorable characters on both sides. *)
Definition handle_capital_sigma (before_rev after : str) : N :=
  let final_sigma :=
    match drop_while iscaseignorable before_rev with
    | c :: _ => iscased c
    | [] => false
    end in
  let final_sigma :=
    if final_sigma
    then match drop_while iscaseignorable after with
         | [] => true
         | c :: _ => negb (iscased c)
         end
    else false in
  if final_sigma then 962%N else 963%N.

Definition lower_ucs4 (before_rev after : str) (c : N) : str :=
  if N.eqb c 931 then [handle_capital_sigma before_rev after] else tolower_full c.

Fixpoint do_lower (before_rev : str) (s : str) : str :=
  match s with
  | [] => []
  | c :: after => lower_ucs4 before_rev after c ++ do_lower (c :: before_rev) after
  end.

(** [s.lower()] *)
Definition lower (s : str) : str := do_lower [] s.

(** [s.capitalize()]: the first character capitalized, the rest lowered. *)
Definition capitalize (s : str) : str :=
  match s with
  | [] => []
  | c :: r => totitle_full c ++ do_lower [c] r
  end.

(** [''.join(parts)] *)
Definition join_empty (parts : list str) : str := concat parts.

(** ** Name canonicalizer: [to_camel_case]

    The function has the same text in [find_missing.py] and in
    [missing_jokers_analysis.py].  The seventh key is the name Seance with
    its accented letter read in the wrong encoding: S, U+00C3, U+00A9,
    a, n, c, e. *)
Definition seance_key : str := py "S" ++ [195; 169]%N ++ py "ance".

Definition general_rule (name : str) : str :=
  let name := replace 45 (py " ") (replace 33 [] (replace 39 [] name)) in
  let words := split name in
  join_empty (map capitalize words).

Definition to_camel_case (name : str) : str :=
  if str_eqb name (py "Joker") then py "TheJoker"
  else if str_eqb name (py "Oops! All 6s") then py "OopsAll6s"
  else if str_eqb name (py "8 Ball") then py "EightBall"
  else if str_eqb name (py "Mail-In Rebate") then py "MailInRebate"
  else if str_eqb name (py "Riff-Raff") then py "RiffRaff"
  else if str_eqb name (py "Walkie Talkie") then py "WalkieTalkie"
  else if str_eqb name seance_key then py "Seance"
  else if str_eqb name (py "Sock and Buskin") then py "SockAndBuskin"
  else if str_eqb name (py "Driver's License") then py "DriverLicense"
  else general_rule name.

End StringMethods.

(** ** Search helpers: literal text, as [re.search], [re.match] and [in] find it *)

(** [strip_prefix p s] is what follows [p] when [s] starts with [p]. *)
Fixpoint strip_prefix (p s : str) : option str :=
  match p, s with
  | [], _ => Some s
  | x :: p', y :: s' => if N.eqb x y then strip_prefix p' s' else None
  | _ :: _, [] => None
  end.

(** The text after the leftmost occurrence of [pat]. *)
Fixpoint find_after (pat s : str) : option str :=
  match strip_prefix pat s with
  | Some r => Some r
  | None => match s with
            | [] => None
            | _ :: s' => find_after pat s'
            end
  end.

(** The text before the leftmost occurrence of [pat]. *)
Fixpoint find_before (pat s : str) : option str :=
  match strip_prefix pat s with
  | Some _ => Some []
  | None => match s with
            | [] => None
            | c :: s' => option_map (cons c) (find_before pat s')
            end
  end.

(** [pat in s] *)
Definition contains (pat s : str) : bool :=
  match find_after pat s with Some _ => true | None => false end.

(** [x in l] for a list of strings *)
Definition mem (x : str) (l : list str) : bool := existsb (str_eqb x) l.

(** ** Dictionaries

    A [dict] keeps its keys in insertion order; assigning to a key that is
    present replaces the value in place. *)
Section Dict.
Variable V : Type.

Definition dict := list (str * V).

Fixpoint dict_get (k : str) (d : dict) : option V :=
  match d with
  | [] => None
  | (k', v) :: r => if str_eqb k k' then Some v else dict_get k r
  end.

Definition dict_mem (k : str) (d : dict) : bool :=
  match dict_get k d with Some _ => true | None => false end.

Fixpoint dict_set (k : str) (v : V) (d : dict) : dict :=
  match d with
  | [] => [(k, v)]
  | (k', v') :: r => if str_eqb k k' then (k, v) :: r else (k', v') :: dict_set k v r
  end.

Definition keys (d : dict) : list str := map fst d.
End Dict.

(** ** Implemented identifiers

    [re.search(r'make_jokers!\((.*?)\);', content, re.DOTALL)]: the group is
    the text between the leftmost [make_jokers!(] and the first [);] after
    it; there is no match when either is absent. *)
Definition macro_match (content : str) : option str :=
  match find_after (py "make_jokers!(") content with
  | Some r => find_before (py ");") r
  | None => None
  end.

(** [re.findall] with the pattern of line 10, one letter of [A-Z] followed
    by any number of characters of [a-zA-Z0-9]: the scanner of the pattern.
    [cur] is the token being read, last character first; a token
    starts at an upper-case letter outside a token and runs as long as
    letters and digits follow. *)
Fixpoint findall_ident (cur : option str) (s : str) : list str :=
  match s with
  | [] => match cur with Some t => [rev t] | None => [] end
  | c :: r =>
      match cur with
      | Some t => if is_alnum c then findall_ident (Some (c :: t)) r
                  else rev t :: findall_ident None r
      | None => if is_upper c then findall_ident (Some [c]) r
                else findall_ident None r
      end
  end.

Definition stop_list : list str :=
  [py "Missing"; py "jokers"; py "adding"; py "to"; py "reach"; py "total"].

(** [implemented] as bound by lines 10 and 11 of both scripts. *)
Definition implemented_of (macro_content : str) : list str :=
  let implemented := findall_ident None macro_content in
  filter (fun j => negb (mem j stop_list)) implemented.

(** The name [implemented] after line 12: unbound when the pattern of line 7
    finds nothing. *)
Definition implemented (content : str) : option (list str) :=
  option_map implemented_of (macro_match content).

(** ** Table rows

    [re.match(r'\|\s*(\d+)\s*\|\s*([^|]+?)\s*\|\s*\$(\d+)\s*\|\s*([^|]+?)\s*\|\s*([^|]+?)\s*\|', line)].
    The classes [\s] and [\d] are disjoint and contain neither [|] nor [$],
    and no column can run across a [|], so the match is found without
    backtracking between columns. *)
Section Rows.
Context {U : Unicode}.

Definition expect (c : N) (s : str) : option str :=
  match s with
  | x :: r => if N.eqb x c then Some r else None
  | [] => None
  end.

(** [(\d+)\s*\|] *)
Definition re_digits (s : str) : option (str * str) :=
  match take_while isdecimal s with
  | [] => None
  | d => match expect 124 (drop_while isspace (drop_while isdecimal s)) with
         | Some r => Some (d, r)
         | None => None
         end
  end.

(** [\s*([^|]+?)\s*\|]: the column up to the next [|], without the spaces
    around it; a column of spaces only yields its last space, an empty
    column does not match. *)
Definition re_text (s : str) : option (str * str) :=
  let not_bar := fun c => negb (N.eqb c 124) in
  let col := take_while not_bar s in
  match drop_while not_bar s with
  | [] => None
  | _ :: r =>
      match drop_while isspace col with
      | [] => match rev col with
              | [] => None
              | c :: _ => Some ([c], r)
              end
      | g => Some (rev (drop_while isspace (rev g)), r)
      end
  end.

Definition row_match (line : str) : option (str * str * str * str * str) :=
  match expect 124 line with
  | None => None
  | Some s =>
  match re_digits (drop_while isspace s) with
  | None => None
  | Some (num, s) =>
  match re_text s with
  | None => None
  | Some (name, s) =>
  match expect 36 (drop_while isspace s) with
  | None => None
  | Some s =>
  match re_digits s with
  | None => None
  | Some (cost, s) =>
  match re_text s with
  | None => None
  | Some (effect, s) =>
  match re_text s with
  | None => None
  | Some (unlock, _) => Some (num, name, cost, effect, unlock)
  end end end end end end end.
End Rows.

(** [enumerate(lines, start)] *)
Definition enumerate (A : Type) (start : nat) (l : list A) : list (nat * A) :=
  combine (seq start (length l)) l.

(** [sorted(names)]: ascending in the code-point order of [str]. *)
Fixpoint insert_sorted (x : str) (l : list str) : list str :=
  match l with
  | [] => [x]
  | y :: r => if str_leb x y then x :: l else y :: insert_sorted x r
  end.

Definition sorted (l : list str) : list str := fold_right insert_sorted [] l.

(** [str(n)] as an f-string renders a length. *)
Definition str_of_nat (n : nat) : str := py (NilZero.string_of_uint (Nat.to_uint n)).

(** ** Script effects

    A script prints lines and may stop with an exception; the only one that
    concerns the model is the [NameError] raised by reading a name that the
    guarded block of lines 8 to 12 did not bind. *)
Inductive exn := NameError (name : string).

Inductive result (A : Type) :=
| Ok (a : A)
| Raise (e : exn).
Arguments Ok {A} a.
Arguments Raise {A} e.

(** The lines printed so far, and how the computation ended. *)
Definition script (A : Type) : Type := list str * result A.

Definition ret {A : Type} (a : A) : script A := ([], Ok a).

Definition bind {A B : Type} (c : script A) (k : A -> script B) : script B :=
  match c with
  | (out, Ok a) => let (out', r) := k a in (out ++ out', r)
  | (out, Raise e) => (out, Raise e)
  end.

Definition print (s : str) : script unit := ([s], Ok tt).

(** Reading a global name. *)
Definition load {A : Type} (name : string) (binding : option A) : script A :=
  match binding with
  | Some a => ret a
  | None => ([], Raise (NameError name))
  end.

Declare Scope script_scope.
Delimit Scope script_scope with script.
Notation "x <- c ;; k" := (bind c (fun x => k))
  (at level 61, c at next level, right associativity) : script_scope.
Notation "c ;; k" := (bind c (fun _ => k))
  (at level 61, right associativity) : script_scope.

(** [for x in l: body], threading the variables the body assigns. *)
Fixpoint for_each {A S : Type} (l : list A) (body : A -> S -> script S) (s : S) : script S :=
  match l with
  | [] => ret s
  | x :: r => bind (body x s) (for_each r body)
  end.

Definition stdout {A : Type} (c : script A) : list str := fst c.
Definition outcome {A : Type} (c : script A) : result A := snd c.

(** ** missing_jokers_analysis.py *)
Module MissingJokersAnalysis.

Inductive section_name := Unknown | Common | Uncommon | Rare | Legendary.

Record detail := {
  line : nat;
  section : section_name;
  num : str;
  cost : str;
  effect : str;
  unlock : str
}.

Section Script.
Context {U : Unicode}.

(** Line 12 *)
Definition implemented_set (implemented : list str) : list str :=
  map lower implemented.

(** Lines 22 to 29 *)
Definition next_section (current_section : section_name) (line : str) : section_name :=
  if contains (py "# Common Jokers") line then Common
  else if contains (py "# Uncommon Jokers") line then Uncommon
  else if contains (py "# Rare Jokers") line then Rare
  else if contains (py "# Legendary Jokers") line then Legendary
  else current_section.

(** Lines 22 to 34 and the dictionary literal of lines 39 to 46: the
    section in force after the line, and the row it holds, if any. *)
Definition read_line (current_section : section_name) (il : nat * str)
  : section_name * option (str * detail) :=
  let (i, line) := il in
  let current_section := next_section current_section line in
  match row_match line with
  | Some (num, name, cost, effect, unlock) =>
      let name := strip name in
      (current_section,
       Some (name, {| line := i; section := current_section; num := num;
                      cost := cost; effect := strip effect; unlock := strip unlock |}))
  | None => (current_section, None)
  end.

(** Lines 36 to 46 *)
Definition record_row (joker_details : dict (list detail)) (name : str) (d : detail)
  : dict (list detail) :=
  let joker_details :=
    if negb (dict_mem name joker_details) then dict_set name [] joker_details
    else joker_details in
  match dict_get name joker_details with
  | Some l => dict_set name (l ++ [d]) joker_details
  | None => joker_details
  end.

(** One turn of the loop of line 21 *)
Definition loop_body (st : section_name * dict (list detail)) (il : nat * str)
  : section_name * dict (list detail) :=
  let (current_section, joker_details) := st in
  match read_line current_section il with
  | (current_section, Some (name, d)) => (current_section, record_row joker_details name d)
  | (current_section, None) => (current_section, joker_details)
  end.

Definition joker_details (lines : list str) : dict (list detail) :=
  snd (fold_left loop_body (enumerate 1 lines) (Unknown, [])).

(** Line 49 *)
Definition duplicates (joker_details : dict (list detail)) : dict (list detail) :=
  filter (fun nd => 1 <? length (snd nd)) joker_details.

(** Lines 77 to 81 *)
Definition missing_names (implemented_set : list str) (joker_details : dict (list detail))
  : list str :=
  filter (fun name => negb (mem (lower (to_camel_case name)) implemented_set))
         (keys joker_details).

(** The four numbers printed by lines 87 to 90 *)
Record counts := {
  total_implemented : nat;
  total_unique : nat;
  total_duplicates : nat;
  total_missing : nat
}.

Definition report_counts (implemented : list str) (lines : list str) : counts :=
  let joker_details := joker_details lines in
  {| total_implemented := length implemented;
     total_unique := length joker_details;
     total_duplicates := length (duplicates joker_details);
     total_missing := length (missing_names (implemented_set implemented) joker_details) |}.

(** The extracted entries: the rows of the document in document order,
    each with the name it is filed under. *)
Fixpoint entries_from (current_section : section_name) (l : list (nat * str))
  : list (str * detail) :=
  match l with
  | [] => []
  | il :: r =>
      match read_line current_section il with
      | (current_section, Some e) => e :: entries_from current_section r
      | (current_section, None) => entries_from current_section r
      end
  end.

Definition entries (lines : list str) : list (str * detail) :=
  entries_from Unknown (enumerate 1 lines).

End Script.
End MissingJokersAnalysis.

(** ** find_missing.py *)
Module FindMissing.

Record detail := {
  num : str;
  cost : str;
  effect : str;
  unlock : str
}.

Section Script.
Context {U : Unicode}.
Local Open Scope script_scope.

(** Line 12: a dictionary from the lowered identifier to the identifier *)
Definition implemented_lower (implemented : list str) : dict str :=
  fold_left (fun d j => dict_set (lower j) j d) implemented [].

(** One turn of the loop of line 20 *)
Definition loop_body (joker_details : dict detail) (il : nat * str) : dict detail :=
  let (i, line) := il in
  match row_match line with
  | Some (num, name, cost, effect, unlock) =>
      let name := strip name in
      dict_set name {| num := num; cost := cost;
                       effect := strip effect; unlock := strip unlock |} joker_details
  | None => joker_details
  end.

Definition joker_details (lines : list str) : dict detail :=
  fold_left loop_body (enumerate 0 lines) [].

(** The body of the loop of line 61; the dictionary [spec_to_impl] it
    also fills is never read. *)
Definition check_name (implemented_lower : option (dict str))
           (orig_name : str) (missing_names : list str) : script (list str) :=
  let camel := to_camel_case orig_name in
  il <- load "implemented_lower" implemented_lower ;;
  ret (if negb (dict_mem (lower camel) il)
       then missing_names ++ [orig_name] else missing_names).

(** Lines 71 to 80 *)
Definition print_details (joker_details : dict detail) (name : str) (_ : unit) : script unit :=
  match dict_get name joker_details with
  | None => ret tt
  | Some details =>
      let camel := to_camel_case name in
      print (py "Name: " ++ name ++ py " (CamelCase: " ++ camel ++ py ")") ;;
      print (py "  Cost: $" ++ cost details) ;;
      print (py "  Effect: " ++ effect details) ;;
      print (py "  Unlock: " ++ unlock details) ;;
      print []
  end.

(** The script, given the text of [core/src/joker.rs] and the lines of
    [JOKERS.md]. *)
Definition main (content : str) (lines : list str) : script unit :=
  let implemented := implemented content in
  let implemented_lower := option_map implemented_lower implemented in
  let joker_details := joker_details lines in
  missing_names <- for_each (keys joker_details) (check_name implemented_lower) [] ;;
  print (py "Total in JOKERS.md: " ++ str_of_nat (length joker_details)) ;;
  implemented <- load "implemented" implemented ;;
  print (py "Total implemented: " ++ str_of_nat (length implemented)) ;;
  print (py "Missing: " ++ str_of_nat (length missing_names)) ;;
  print [] ;;
  print (py "Missing jokers with details:") ;;
  print (repeat 61%N 80) ;;
  for_each (sorted missing_names) (print_details joker_details) tt.

End Script.
End FindMissing.

(** ** missing_jokers_analysis.py: what the script prints *)
Module MissingJokersAnalysisMain.
Import MissingJokersAnalysis.

Definition section_str (s : section_name) : str :=
  match s with
  | Unknown => py "Unknown"
  | Common => py "Common"
  | Uncommon => py "Uncommon"
  | Rare => py "Rare"
  | Legendary => py "Legendary"
  end.

(** [sep.join(parts)] *)
Fixpoint join (sep : str) (parts : list str) : str :=
  match parts with
  | [] => []
  | [x] => x
  | x :: r => x ++ sep ++ join sep r
  end.

Definition rule : str := repeat 61%N 80.

Section Script.
Context {U : Unicode}.
Local Open Scope script_scope.

(** The body of the loop of line 78 *)
Definition check_name (implemented_set : option (list str))
           (name : str) (missing_names : list str) : script (list str) :=
  let camel := to_camel_case name in
  iset <- load "implemented_set" implemented_set ;;
  ret (if negb (mem (lower camel) iset)
       then missing_names ++ [name] else missing_names).

(** Line 100 *)
Definition print_entry (entry : detail) (_ : unit) : script unit :=
  print (py "  - Line " ++ str_of_nat (line entry) ++ py ": "
         ++ section_str (section entry) ++ py " section, #" ++ num entry
         ++ py ", $" ++ cost entry).

(** Lines 98 to 101; the name comes from the keys of [duplicates], so the
    lookup of line 99 finds it. *)
Definition print_duplicate (duplicates : dict (list detail)) (name : str) (_ : unit)
  : script unit :=
  print (name ++ py ":") ;;
  for_each (match dict_get name duplicates with Some es => es | None => [] end)
           print_entry tt ;;
  print [].

(** Lines 108 to 116; the name comes from the keys of [joker_details] and
    every group has a first element, so the lookup of line 109 finds it. *)
Definition print_missing (joker_details : dict (list detail)) (name : str) (_ : unit)
  : script unit :=
  let camel := to_camel_case name in
  match dict_get name joker_details with
  | Some (details :: _) =>
      print (py "Name: " ++ name) ;;
      print (py "  CamelCase: " ++ camel) ;;
      print (py "  Rarity: " ++ section_str (section details)) ;;
      print (py "  Cost: $" ++ cost details) ;;
      print (py "  Effect: " ++ effect details) ;;
      print (py "  Unlock: " ++ unlock details) ;;
      print []
  | _ => ret tt
  end.

(** Lines 118 to 134 *)
Definition print_summary (missing_names : list str) : script unit :=
  print rule ;;
  print (py "SUMMARY") ;;
  print rule ;;
  print [] ;;
  print (py "JOKERS.MD declares 150 total jokers but has documentation errors:") ;;
  print (py "  - 153 total table entries") ;;
  print (py "  - 148 unique jokers") ;;
  print (py "  - 5 duplicates (listed in both Common and Uncommon sections)") ;;
  print [] ;;
  print (py "Implementation status:") ;;
  print (py "  - 147 jokers implemented") ;;
  print (py "  - " ++ str_of_nat (length missing_names) ++ py " jokers missing: "
         ++ join (py ", ") (sorted missing_names)) ;;
  print [] ;;
  print (py "To reach true 150 total:") ;;
  print (py "  - Fix JOKERS.MD duplicates (determine correct rarity for 5 jokers)") ;;
  print (py "  - Add " ++ str_of_nat (length missing_names) ++ py " missing joker(s)") ;;
  print (py "  - Add 3 more new jokers (if aiming for 150 total unique)").

(** The script, given the text of [core/src/joker.rs] and the lines of
    [JOKERS.md]. *)
Definition main (content : str) (lines : list str) : script unit :=
  let implemented := implemented content in
  let implemented_set := option_map implemented_set implemented in
  let joker_details := joker_details lines in
  let duplicates := duplicates joker_details in
  missing_names <- for_each (keys joker_details) (check_name implemented_set) [] ;;
  print rule ;;
  print (py "MISSING JOKERS ANALYSIS") ;;
  print rule ;;
  print [] ;;
  implemented <- load "implemented" implemented ;;
  print (py "Total implemented: " ++ str_of_nat (length implemented)) ;;
  print (py "Total unique in JOKERS.md: " ++ str_of_nat (length joker_details)) ;;
  print (py "Duplicates in JOKERS.md: " ++ str_of_nat (length duplicates)) ;;
  print (py "Missing from implementation: " ++ str_of_nat (length missing_names)) ;;
  print [] ;;
  print rule ;;
  print (py "DUPLICATES IN JOKERS.MD (DOCUMENTATION ERROR)") ;;
  print rule ;;
  print [] ;;
  for_each (sorted (keys duplicates)) (print_duplicate duplicates) tt ;;
  print rule ;;
  print (py "GENUINELY MISSING JOKERS FROM IMPLEMENTATION") ;;
  print rule ;;
  print [] ;;
  for_each (sorted missing_names) (print_missing joker_details) tt ;;
  print_summary missing_names.

End Script.
End MissingJokersAnalysisMain.

(** ** The specification's vocabulary *)

(** The override table of the canonicalizer, as the specification lists it. *)
Definition override_table : list (str * str) :=
  [ (py "Joker", py "TheJoker");
    (py "Oops! All 6s", py "OopsAll6s");
    (py "8 Ball", py "EightBall");
    (py "Mail-In Rebate", py "MailInRebate");
    (py "Riff-Raff", py "RiffRaff");
    (py "Walkie Talkie", py "WalkieTalkie");
    (seance_key, py "Seance");
    (py "Sock and Buskin", py "SockAndBuskin");
    (py "Driver's License", py "DriverLicense") ].

Definition override_keys : list str := map fst override_table.

(** The distinct members of a list, in the order they are first seen. *)
Definition distinct (l : list str) : list str :=
  fold_left (fun acc x => if mem x acc then acc else acc ++ [x]) l [].

(** The number of elements of the set a list stands for. *)
Definition cardinality (l : list str) : nat := length (distinct l).

Definition count_name (n : str) (l : list str) : nat :=
  length (filter (str_eqb n) l).

Section Grouping.
Variable V : Type.

(** The entries filed under a name, in document order. *)
Definition occurrences (n : str) (es : list (str * V)) : list V :=
  map snd (filter (fun e => str_eqb (fst e) n) es).

(** Entries grouped by name: one group per distinct name, names in
    first-seen order, each group in document order. *)
Definition grouped (es : list (str * V)) : dict (list V) :=
  map (fun n => (n, occurrences n es)) (distinct (map fst es)).
End Grouping.

(** The four findings of the reconciliation about one display name. *)
Inductive finding := FullyMatched | MissingOnly | DuplicateOnly | MissingAndDuplicate.

Definition classify (missing duplicated : list str) (name : str) : finding :=
  match mem name missing, mem name duplicated with
  | false, false => FullyMatched
  | true, false => MissingOnly
  | false, true => DuplicateOnly
  | true, true => MissingAndDuplicate
  end.

Definition is_letter (c : N) : bool := is_upper c || is_lower c.

(** Two strings that differ in the case of ASCII letters only. *)
Fixpoint same_ignoring_case (a b : str) : bool :=
  match a, b with
  | [], [] => true
  | x :: a', y :: b' =>
      (N.eqb x y || (is_letter x && is_letter y && N.eqb (ascii_tolower x) (ascii_tolower y)))
      && same_ignoring_case a' b'
  | _, _ => false
  end.

(** What the theorems that look inside lowered or capitalized text assume
    of the character database: on ASCII it is the ASCII table; beyond ASCII
    a case mapping turns no character that is not a space into a space and
    yields no ASCII character other than a letter; and the two small sigmas
    are not spaces. *)
Record ascii_compatible (U : Unicode) : Prop := {
  space_ascii : forall c, (c < 128)%N -> isspace c = ascii_isspace c;
  lower_ascii : forall c, (c < 128)%N -> tolower_full c = [ascii_tolower c];
  title_ascii : forall c, (c < 128)%N -> totitle_full c = [ascii_toupper c];
  case_beyond_ascii : forall c d, (128 <= c)%N ->
    In d (tolower_full c ++ totitle_full c) ->
    (isspace c = false -> isspace d = false) /\ ((d < 128)%N -> is_letter d = true);
  sigma_not_space : isspace 962 = false /\ isspace 963 = false
}.

(** ASCII punctuation. *)
Definition is_punct (c : N) : bool :=
  ((33 <=? c)%N && (c <=? 47)%N) || ((58 <=? c)%N && (c <=? 64)%N)
  || ((91 <=? c)%N && (c <=? 96)%N) || ((123 <=? c)%N && (c <=? 126)%N).

(** The characters the general rule removes: white space, apostrophe,
    exclamation mark, hyphen. *)
Definition removed {U : Unicode} (c : N) : bool :=
  isspace c || N.eqb c 39 || N.eqb c 33 || N.eqb c 45.

(** The shape the pattern of line 10 accepts. *)
Definition ident_shape (j : str) : bool :=
  match j with
  | [] => false
  | c :: r => is_upper c && forallb is_alnum r
  end.

(** The display name after line 72 of the canonicalizer: apostrophes and
    exclamation marks gone, hyphens turned into spaces. *)
Definition unpunctuated (name : str) : str :=
  replace 45 (py " ") (replace 33 [] (replace 39 [] name)).

(** A word is kept when it has at least one character. *)
Definition push_word (w : str) (ws : list str) : list str :=
  match w with [] => ws | _ => w :: ws end.

Section SpecWords.
Context {U : Unicode}.

(** The words of a text: [spec_words_from s] is the word that starts at
    the head of [s] (empty when [s] starts with a space) and the words
    after it. *)
Fixpoint spec_words_from (s : str) : str * list str :=
  match s with
  | [] => ([], [])
  | c :: r =>
      let (w, ws) := spec_words_from r in
      if isspace c then ([], push_word w ws) else (c :: w, ws)
  end.

Definition spec_words (s : str) : list str :=
  let (w, ws) := spec_words_from s in push_word w ws.







End SpecWords.


(** The ASCII database with the three forms of the letter DZ with caron
    added: U+01C4 in upper case, U+01C5 in title case, U+01C6 in lower
    case. *)
Definition is_dz (c : N) : bool := (452 <=? c)%N && (c <=? 454)%N.

Definition dz_db : Unicode := {|
  isspace := ascii_isspace;
  isdecimal := is_digit;
  tolower_full := fun c => if is_dz c then [454%N] else [ascii_tolower c];
  totitle_full := fun c => if is_dz c then [453%N] else [ascii_toupper c];
  iscased := fun c => is_dz c || is_upper c || is_lower c;
  iscaseignorable := fun c => existsb (N.eqb c) [39; 46; 58; 94; 96]%N
|}.


(** ** Vocabulary of the further properties *)

(** A text that lists identifiers: each item is the separator before an
    identifier and the identifier. *)
Definition listed (items : list (str * str)) (tail : str) : str :=
  concat (map (fun it => fst it ++ snd it) items) ++ tail.

Definition no_alnum (s : str) : bool := forallb (fun c => negb (is_alnum c)) s.

(** A run of white space, possibly empty. *)
Definition blank {U : Unicode} (s : str) : bool := forallb isspace s.

(** A column text as the row pattern captures it: not empty, no bar, and
    no white space at either end. *)
Definition tight {U : Unicode} (s : str) : bool :=
  match s with
  | [] => false
  | c :: r => negb (isspace c) && negb (isspace (last r c))
              && forallb (fun x => negb (N.eqb x 124)) s
  end.

(** A row of the table, column by column: the bars, the white space around
    each column and what follows the last bar. *)
Record row_text := {
  pad_num : str * str;  col_num : str;
  pad_name : str * str; col_name : str;
  pad_cost : str * str; col_cost : str;
  pad_effect : str * str; col_effect : str;
  pad_unlock : str * str; col_unlock : str;
  after_row : str
}.

Definition row_line (r : row_text) : str :=
  124%N :: fst (pad_num r) ++ col_num r ++ snd (pad_num r)
  ++ 124%N :: fst (pad_name r) ++ col_name r ++ snd (pad_name r)
  ++ 124%N :: fst (pad_cost r) ++ 36%N :: col_cost r ++ snd (pad_cost r)
  ++ 124%N :: fst (pad_effect r) ++ col_effect r ++ snd (pad_effect r)
  ++ 124%N :: fst (pad_unlock r) ++ col_unlock r ++ snd (pad_unlock r)
  ++ 124%N :: after_row r.

Definition blank_pad {U : Unicode} (p : str * str) : bool := blank (fst p) && blank (snd p).

Definition row_pads_blank {U : Unicode} (r : row_text) : bool :=
  blank_pad (pad_num r) && blank_pad (pad_name r) && blank_pad (pad_cost r)
  && blank_pad (pad_effect r) && blank_pad (pad_unlock r).

Definition decimal {U : Unicode} (s : str) : bool :=
  match s with [] => false | _ => forallb isdecimal s end.

(** What the row pattern relies on: no character is both a space and a
    decimal digit, and the bar and the dollar sign are neither. *)
Record row_classes (U : Unicode) : Prop := {
  decimal_not_space : forall c, isdecimal c = true -> isspace c = false;
  bar_plain : isspace 124 = false /\ isdecimal 124 = false;
  dollar_plain : isspace 36 = false
}.

(** The section in force after the first [i] lines of the document. *)
Definition section_at {U : Unicode} (lines : list str) (i : nat)
  : MissingJokersAnalysis.section_name :=
  fold_left MissingJokersAnalysis.next_section (firstn i lines)
            MissingJokersAnalysis.Unknown.

(** The entry [missing_jokers_analysis.py] files for a row matched on line
    [i] under section [sec]. *)
Definition make_entry {U : Unicode} (i : nat) (sec : MissingJokersAnalysis.section_name)
           (g : str * str * str * str * str) : str * MissingJokersAnalysis.detail :=
  let '(num, name, cost, effect, unlock) := g in
  (strip name,
   {| MissingJokersAnalysis.line := i; MissingJokersAnalysis.section := sec;
      MissingJokersAnalysis.num := num; MissingJokersAnalysis.cost := cost;
      MissingJokersAnalysis.effect := strip effect;
      MissingJokersAnalysis.unlock := strip unlock |}).

(** A line that names no section. *)
Definition no_header (line : str) : bool :=
  negb (contains (py "# Common Jokers") line)
  && negb (contains (py "# Uncommon Jokers") line)
  && negb (contains (py "# Rare Jokers") line)
  && negb (contains (py "# Legendary Jokers") line).

(** The rows [find_missing.py] reads, in document order, each with the
    name it is filed under. *)
Definition found_rows {U : Unicode} (lines : list str) : list (str * FindMissing.detail) :=
  flat_map (fun line =>
              match row_match line with
              | Some (num, name, cost, effect, unlock) =>
                  [(strip name,
                    {| FindMissing.num := num; FindMissing.cost := cost;
                       FindMissing.effect := strip effect;
                       FindMissing.unlock := strip unlock |})]
              | None => []
              end) lines.

(** The lines [find_missing.py] prints for one missing name. *)
Definition details_block {U : Unicode} (joker_details : dict FindMissing.detail)
           (name : str) : list str :=
  match dict_get name joker_details with
  | Some d =>
      [ py "Name: " ++ name ++ py " (CamelCase: " ++ to_camel_case name ++ py ")";
        py "  Cost: $" ++ FindMissing.cost d;
        py "  Effect: " ++ FindMissing.effect d;
        py "  Unlock: " ++ FindMissing.unlock d;
        [] ]
  | None => []
  end.

(** What [missing_jokers_analysis.py] prints for a duplicated name, given
    the rows of the name, and for a missing name, given its rows. *)
Definition entry_line (entry : MissingJokersAnalysis.detail) : str :=
  py "  - Line " ++ str_of_nat (MissingJokersAnalysis.line entry) ++ py ": "
  ++ MissingJokersAnalysisMain.section_str (MissingJokersAnalysis.section entry)
  ++ py " section, #" ++ MissingJokersAnalysis.num entry
  ++ py ", $" ++ MissingJokersAnalysis.cost entry.

Definition duplicate_block (name : str) (rows : list MissingJokersAnalysis.detail)
  : list str :=
  (name ++ py ":") :: map entry_line rows ++ [[]].

Definition missing_block {U : Unicode} (name : str)
           (rows : list MissingJokersAnalysis.detail) : list str :=
  match rows with
  | first :: _ =>
      [ py "Name: " ++ name;
        py "  CamelCase: " ++ to_camel_case name;
        py "  Rarity: "
          ++ MissingJokersAnalysisMain.section_str (MissingJokersAnalysis.section first);
        py "  Cost: $" ++ MissingJokersAnalysis.cost first;
        py "  Effect: " ++ MissingJokersAnalysis.effect first;
        py "  Unlock: " ++ MissingJokersAnalysis.unlock first;
        [] ]
  | [] => []
  end.

(** * Properties *)

(** ** Strings *)

Lemma str_eqb_eq (a b : str) : str_eqb a b = true <-> a = b.
Proof.
  revert b; induction a as [|x a IH]; intros [|y b]; simpl; split; try congruence; auto.
  - intros H. apply andb_true_iff in H as [Hx Hab].
    apply N.eqb_eq in Hx. apply IH in Hab. congruence.
  - intros H. injection H as -> ->.
    rewrite N.eqb_refl. simpl. now apply IH.
Qed.

Lemma str_eqb_refl (a : str) : str_eqb a a = true.
Proof. now apply str_eqb_eq. Qed.

Lemma str_eqb_neq (a b : str) : str_eqb a b = false <-> a <> b.
Proof.
  rewrite <- str_eqb_eq. destruct (str_eqb a b); split; congruence.
Qed.

Lemma str_eqb_sym (a b : str) : str_eqb a b = str_eqb b a.
Proof.
  destruct (str_eqb a b) eqn:E.
  - apply str_eqb_eq in E as ->. now rewrite str_eqb_refl.
  - symmetry. apply str_eqb_neq. apply str_eqb_neq in E. congruence.
Qed.

Lemma mem_In (x : str) (l : list str) : mem x l = true <-> In x l.
Proof.
  unfold mem. rewrite existsb_exists. split.
  - intros (y & Hy & E). apply str_eqb_eq in E. now subst.
  - intros H. exists x. split; [assumption | apply str_eqb_refl].
Qed.

Lemma mem_not_In (x : str) (l : list str) : mem x l = false <-> ~ In x l.
Proof.
  rewrite <- mem_In. destruct (mem x l); split; congruence.
Qed.

(** ** C1: overrides *)

(** C1.  Every key of the override table is mapped by [to_camel_case] to
    the identifier the table gives for it, whatever the character database
    is: the general rule, the only part that consults the database, is not
    reached.  For the keys [8 Ball], [Joker] and [Driver's License] the
    general rule alone would have given another identifier. *)
Theorem override_precedence :
  Forall (fun kv => forall U : Unicode, @to_camel_case U (fst kv) = snd kv) override_table
  /\ @general_rule ascii_db (py "8 Ball") = py "8Ball"
  /\ @general_rule ascii_db (py "Joker") = py "Joker"
  /\ @general_rule ascii_db (py "Driver's License") = py "DriversLicense".
Proof.
  split.
  - unfold override_table. repeat constructor.
  - repeat split; vm_compute; reflexivity.
Qed.

(** ** C2: the general rule *)

Lemma to_camel_case_general {U : Unicode} (name : str) :
  ~ In name override_keys -> to_camel_case name = general_rule name.
Proof.
  intros H. unfold to_camel_case.
  repeat match goal with
  | |- (if str_eqb name ?k then _ else _) = _ =>
      destruct (str_eqb name k) eqn:E;
      [ exfalso; apply H; apply str_eqb_eq in E; rewrite E;
        unfold override_keys, override_table; simpl; tauto
      | clear E ]
  end.
  reflexivity.
Qed.

Lemma replace_delete (old : N) (s : str) :
  replace old [] s = filter (fun c => negb (N.eqb c old)) s.
Proof.
  induction s as [|c r IH]; simpl; [reflexivity|].
  rewrite IH. now destruct (N.eqb c old).
Qed.

Lemma replace_one (old new : N) (s : str) :
  replace old [new] s = map (fun c => if N.eqb c old then new else c) s.
Proof.
  induction s as [|c r IH]; simpl; [reflexivity|].
  rewrite IH. now destruct (N.eqb c old).
Qed.

Lemma filter_filter (A : Type) (p q : A -> bool) (l : list A) :
  filter q (filter p l) = filter (fun x => p x && q x) l.
Proof.
  induction l as [|x l IH]; simpl; [reflexivity|].
  destruct (p x); simpl; [destruct (q x)|]; now rewrite IH.
Qed.

Section Words.
Context {U : Unicode}.

(** The scanner of [split] and the words of the specification agree, for
    every word already begun. *)
Lemma push_word_snoc (cur : str) (x : N) (ws : list str) :
  push_word (rev (x :: cur)) ws = rev (x :: cur) :: ws.
Proof.
  simpl. destruct (rev cur ++ [x]) eqn:E; [|reflexivity].
  now apply app_eq_nil in E as [_ E].
Qed.

Lemma split_from_spec (s cur : str) :
  split_from cur s =
  push_word (rev cur ++ fst (spec_words_from s)) (snd (spec_words_from s)).
Proof.
  revert cur; induction s as [|c r IH]; intros cur.
  - simpl. rewrite app_nil_r.
    destruct cur as [|x cur]; [reflexivity|]. now rewrite push_word_snoc.
  - cbn [split_from spec_words_from].
    destruct (spec_words_from r) as [w ws] eqn:Er.
    destruct (isspace c); cbn [fst snd].
    + rewrite app_nil_r.
      assert (Hr : split_from [] r = push_word w ws)
        by (rewrite IH; reflexivity).
      rewrite Hr.
      destruct cur as [|x cur]; [reflexivity|]. now rewrite push_word_snoc.
    + rewrite IH. cbn [fst snd rev]. now rewrite <- app_assoc.
Qed.

Lemma split_spec_words (s : str) : split s = spec_words s.
Proof.
  unfold split, spec_words. rewrite split_from_spec.
  destruct (spec_words_from s) as [w ws]. reflexivity.
Qed.







End Words.

(** ** C8: the implemented identifiers *)

Lemma is_upper_alnum (c : N) : is_upper c = true -> is_alnum c = true.
Proof. unfold is_alnum. intros ->. now rewrite orb_true_r. Qed.

Lemma ident_shape_snoc (t : str) (c : N) :
  ident_shape t = true -> is_alnum c = true -> ident_shape (t ++ [c]) = true.
Proof.
  destruct t as [|x t]; simpl; [discriminate|].
  intros H Hc. apply andb_true_iff in H as [Hx Ht].
  rewrite Hx, forallb_app, Ht. simpl. now rewrite Hc.
Qed.

Lemma findall_ident_shape (s : str) (cur : option str) :
  match cur with Some t => ident_shape (rev t) = true | None => True end ->
  Forall (fun j => ident_shape j = true) (findall_ident cur s).
Proof.
  revert cur; induction s as [|c r IH]; intros [t|] Hcur; simpl.
  - constructor; [assumption | constructor].
  - constructor.
  - destruct (is_alnum c) eqn:Hc.
    + apply IH. simpl. now apply ident_shape_snoc.
    + constructor; [assumption | now apply IH].
  - destruct (is_upper c) eqn:Hc.
    + apply IH. simpl. now rewrite Hc.
    + now apply IH.
Qed.

Lemma implemented_of_In (macro_content j : str) :
  In j (implemented_of macro_content)
  <-> In j (findall_ident None macro_content) /\ ~ In j stop_list.
Proof.
  unfold implemented_of. rewrite filter_In, negb_true_iff, mem_not_In. reflexivity.
Qed.

Lemma implemented_of_shape (macro_content : str) :
  Forall (fun j => ident_shape j = true) (implemented_of macro_content).
Proof.
  apply Forall_forall. intros j Hj. apply implemented_of_In in Hj as [Hj _].
  revert j Hj. apply Forall_forall. now apply findall_ident_shape.
Qed.

(** C8.  Whatever text the macro call encloses, every identifier extracted
    from it begins with an upper-case ASCII letter and consists of ASCII
    letters and digits only; a token is kept exactly when it is not on the
    stop list, so every token on the stop list is discarded; and none of
    the words missing, jokers, adding, to, reach, total is ever extracted. *)
Theorem implemented_identifiers (macro_content : str) :
  Forall (fun j => exists c r, j = c :: r /\ is_upper c = true
                               /\ forallb is_alnum (c :: r) = true
                               /\ forallb is_ascii j = true)
         (implemented_of macro_content)
  /\ (forall t, In t (findall_ident None macro_content) ->
                (In t (implemented_of macro_content) <-> ~ In t stop_list))
  /\ (forall w, In w stop_list -> ~ In w (implemented_of macro_content))
  /\ (forall w, In w [py "missing"; py "jokers"; py "adding"; py "to"; py "reach"; py "total"] ->
                ~ In w (implemented_of macro_content)).
Proof.
  repeat split.
  - apply Forall_forall. intros j Hj.
    pose proof (implemented_of_shape macro_content) as Hs.
    rewrite Forall_forall in Hs. specialize (Hs j Hj).
    destruct j as [|c r]; simpl in Hs; [discriminate|].
    apply andb_true_iff in Hs as [Hc Hr].
    exists c, r. repeat split; [assumption | |].
    + simpl. now rewrite (is_upper_alnum _ Hc).
    + assert (Hal : forallb is_alnum (c :: r) = true)
        by (simpl; now rewrite (is_upper_alnum _ Hc)).
      rewrite forallb_forall in Hal |- *. intros x Hx. specialize (Hal x Hx).
      unfold is_alnum, is_lower, is_upper, is_digit, is_ascii in *.
      apply N.ltb_lt.
      repeat match goal with
      | H : _ || _ = true |- _ => apply orb_true_iff in H as [H|H]
      | H : _ && _ = true |- _ => apply andb_true_iff in H as [? H]
      | H : (_ <=? _)%N = true |- _ => apply N.leb_le in H
      end; lia.
  - intros Hin. now apply implemented_of_In in Hin.
  - intros Hn. apply implemented_of_In. now split.
  - intros w Hw Hin. now apply implemented_of_In in Hin as [_ Hn].
  - intros w Hw Hin.
    pose proof (implemented_of_shape macro_content) as Hs.
    rewrite Forall_forall in Hs. specialize (Hs w Hin).
    simpl in Hw.
    repeat (destruct Hw as [<-|Hw]; [vm_compute in Hs; discriminate|]).
    contradiction.
Qed.

(** The stop list is compared letter for letter: a capitalized stop word
    is a token like any other. *)
Example stop_list_exact :
  implemented (py "make_jokers!(Joker, // Missing jokers: Adding 3 to reach 150 total
    Cloud9, DNA);")
  = Some [py "Joker"; py "Adding"; py "Cloud9"; py "DNA"].
Proof. vm_compute. reflexivity. Qed.

(** ** Distinct names *)

Lemma distinct_snoc (l : list str) (x : str) :
  distinct (l ++ [x]) = if mem x (distinct l) then distinct l else distinct l ++ [x].
Proof. unfold distinct. now rewrite fold_left_app. Qed.

Lemma In_distinct (l : list str) (x : str) : In x (distinct l) <-> In x l.
Proof.
  revert x. induction l as [|y l IH] using rev_ind; intros x; [reflexivity|].
  rewrite distinct_snoc, in_app_iff. simpl.
  destruct (mem y (distinct l)) eqn:E.
  - apply mem_In in E. apply IH in E. rewrite IH.
    split; [tauto | intros [H | [<- | []]]; assumption].
  - rewrite in_app_iff, IH. simpl. reflexivity.
Qed.

Lemma NoDup_distinct (l : list str) : NoDup (distinct l).
Proof.
  induction l as [|y l IH] using rev_ind; [constructor|].
  rewrite distinct_snoc. destruct (mem y (distinct l)) eqn:E; [assumption|].
  apply mem_not_In in E. apply NoDup_app; [assumption | repeat constructor; auto |].
  intros x Hx [<-|[]]. contradiction.
Qed.

Lemma mem_distinct (l : list str) (x : str) : mem x (distinct l) = mem x l.
Proof.
  destruct (mem x l) eqn:E.
  - apply mem_In. apply In_distinct. now apply mem_In.
  - apply mem_not_In. rewrite In_distinct. now apply mem_not_In.
Qed.

Lemma distinct_NoDup_id (l : list str) : NoDup l -> distinct l = l.
Proof.
  induction l as [|y l IH] using rev_ind; [reflexivity|].
  intros H. rewrite distinct_snoc, mem_distinct.
  apply NoDup_remove in H as [Hl Hy]. rewrite app_nil_r in *.
  rewrite (IH Hl). apply mem_not_In in Hy. now rewrite Hy.
Qed.

(** ** Dictionaries *)

Section DictFacts.
Variable V : Type.
Implicit Types (d : dict V) (k : str) (v : V).

Lemma dict_get_None k d : dict_get k d = None <-> ~ In k (keys d).
Proof.
  induction d as [|[k' v'] d IH]; simpl; [tauto|].
  destruct (str_eqb k k') eqn:E.
  - apply str_eqb_eq in E. subst. split; [discriminate | tauto].
  - apply str_eqb_neq in E. rewrite IH. intuition congruence.
Qed.

Lemma dict_mem_In k d : dict_mem k d = true <-> In k (keys d).
Proof.
  unfold dict_mem. pose proof (dict_get_None k d) as H.
  destruct (dict_get k d); split; try congruence; intros.
  - destruct (in_dec (list_eq_dec N.eq_dec) k (keys d)); [assumption|].
    apply H in n. discriminate.
  - exfalso. now apply H.
Qed.

Lemma dict_set_absent k v d : ~ In k (keys d) -> dict_set k v d = d ++ [(k, v)].
Proof.
  induction d as [|[k' v'] d IH]; simpl; [reflexivity|]. intros H.
  destruct (str_eqb k k') eqn:E.
  - apply str_eqb_eq in E. subst. tauto.
  - rewrite IH; tauto.
Qed.

Lemma dict_get_last k v d : ~ In k (keys d) -> dict_get k (d ++ [(k, v)]) = Some v.
Proof.
  induction d as [|[k' v'] d IH]; simpl; intros H.
  - now rewrite str_eqb_refl.
  - destruct (str_eqb k k') eqn:E.
    + apply str_eqb_eq in E. subst. tauto.
    + apply IH. tauto.
Qed.

Lemma dict_set_last k v v' d :
  ~ In k (keys d) -> dict_set k v' (d ++ [(k, v)]) = d ++ [(k, v')].
Proof.
  induction d as [|[k' v0] d IH]; simpl; intros H.
  - now rewrite str_eqb_refl.
  - destruct (str_eqb k k') eqn:E.
    + apply str_eqb_eq in E. subst. tauto.
    + rewrite IH; tauto.
Qed.

(** A dictionary given by a function on its keys. *)
Lemma dict_get_tabulate (f : str -> V) k (ks : list str) :
  In k ks -> dict_get k (map (fun n => (n, f n)) ks) = Some (f k).
Proof.
  induction ks as [|n ks IH]; simpl; [tauto|]. intros H.
  destruct (str_eqb k n) eqn:E.
  - apply str_eqb_eq in E. now subst.
  - apply IH. apply str_eqb_neq in E. destruct H; congruence.
Qed.

Lemma keys_tabulate (f : str -> V) (ks : list str) :
  keys (map (fun n => (n, f n)) ks) = ks.
Proof. unfold keys. rewrite map_map. simpl. apply map_id. Qed.

Lemma dict_set_tabulate (f : str -> V) k v (ks : list str) :
  NoDup ks -> In k ks ->
  dict_set k v (map (fun n => (n, f n)) ks)
  = map (fun n => (n, if str_eqb k n then v else f n)) ks.
Proof.
  induction ks as [|n ks IH]; simpl; [tauto|]. intros Hnd H.
  apply NoDup_cons_iff in Hnd as [Hn Hnd].
  destruct (str_eqb k n) eqn:E.
  - apply str_eqb_eq in E. subst n. f_equal.
    apply map_ext_in. intros n Hin.
    destruct (str_eqb k n) eqn:E'; [|reflexivity].
    apply str_eqb_eq in E'. subst. contradiction.
  - f_equal. apply IH; [assumption|].
    apply str_eqb_neq in E. destruct H; congruence.
Qed.
End DictFacts.

(** ** Grouping of the rows *)

Section GroupingFacts.
Variable V : Type.
Implicit Types (es : list (str * V)) (n : str).

Lemma occurrences_snoc n es (n0 : str) (d : V) :
  occurrences n (es ++ [(n0, d)])
  = occurrences n es ++ (if str_eqb n0 n then [d] else []).
Proof.
  unfold occurrences. rewrite filter_app, map_app. simpl.
  now destruct (str_eqb n0 n).
Qed.

Lemma occurrences_absent n es : ~ In n (map fst es) -> occurrences n es = [].
Proof.
  unfold occurrences. induction es as [|[k v] es IH]; simpl; [reflexivity|].
  intros H. destruct (str_eqb k n) eqn:E.
  - apply str_eqb_eq in E. tauto.
  - apply IH. tauto.
Qed.

Lemma occurrences_In n es (d : V) : In d (occurrences n es) <-> In (n, d) es.
Proof.
  unfold occurrences. rewrite in_map_iff. split.
  - intros ([k v] & <- & H). apply filter_In in H as [H E].
    simpl in E. apply str_eqb_eq in E. now subst.
  - intros H. exists (n, d). split; [reflexivity|].
    apply filter_In. split; [assumption | apply str_eqb_refl].
Qed.

Lemma occurrences_length n es :
  length (occurrences n es) = count_name n (map fst es).
Proof.
  unfold occurrences, count_name. rewrite length_map.
  induction es as [|[k v] es IH]; simpl; [reflexivity|].
  rewrite (str_eqb_sym n k). destruct (str_eqb k n); simpl; now rewrite IH.
Qed.

Lemma keys_grouped es : keys (grouped es) = distinct (map fst es).
Proof. apply keys_tabulate. Qed.
End GroupingFacts.

Section AnalysisFacts.
Import MissingJokersAnalysis.
Context {U : Unicode}.

(** Filing one more row keeps the dictionary grouped. *)
Lemma record_row_grouped (es : list (str * detail)) (n : str) (d : detail) :
  record_row (grouped es) n d = grouped (es ++ [(n, d)]).
Proof.
  unfold record_row.
  destruct (dict_mem n (grouped es)) eqn:Hmem; simpl.
  - apply dict_mem_In in Hmem. rewrite keys_grouped in Hmem.
    unfold grouped at 1 2.
    rewrite dict_get_tabulate by assumption.
    rewrite dict_set_tabulate by (auto using NoDup_distinct).
    unfold grouped. rewrite map_app. simpl.
    rewrite distinct_snoc. apply mem_In in Hmem. rewrite Hmem.
    apply map_ext. intros k. rewrite occurrences_snoc.
    destruct (str_eqb n k) eqn:E.
    + apply str_eqb_eq in E. now subst.
    + now rewrite app_nil_r.
  - assert (Hn : ~ In n (keys (grouped es))).
    { intros H. apply dict_mem_In in H. congruence. }
    rewrite dict_set_absent by assumption.
    rewrite dict_get_last by assumption.
    rewrite dict_set_last by assumption.
    rewrite keys_grouped in Hn.
    unfold grouped. rewrite map_app. simpl.
    rewrite distinct_snoc. apply mem_not_In in Hn. rewrite Hn.
    apply mem_not_In in Hn. rewrite In_distinct in Hn.
    rewrite map_app. simpl. f_equal.
    + apply map_ext_in. intros k Hk. rewrite occurrences_snoc.
      destruct (str_eqb n k) eqn:E.
      * apply str_eqb_eq in E. subst. rewrite In_distinct in Hk. contradiction.
      * now rewrite app_nil_r.
    + rewrite occurrences_snoc, str_eqb_refl.
      now rewrite occurrences_absent.
Qed.

Lemma fold_record_grouped (es : list (str * detail)) :
  fold_left (fun jd e => record_row jd (fst e) (snd e)) es [] = grouped es.
Proof.
  induction es as [|[n d] es IH] using rev_ind; [reflexivity|].
  rewrite fold_left_app. simpl. rewrite IH. apply record_row_grouped.
Qed.

Lemma loop_entries (l : list (nat * str)) (cs : section_name) (jd : dict (list detail)) :
  snd (fold_left loop_body l (cs, jd))
  = fold_left (fun jd e => record_row jd (fst e) (snd e)) (entries_from cs l) jd.
Proof.
  revert cs jd; induction l as [|il l IH]; intros cs jd; [reflexivity|].
  simpl. destruct (read_line cs il) as [cs' [[n d]|]]; simpl; apply IH.
Qed.

(** The dictionary built by the loop of line 21 is the grouping of the
    rows of the document. *)
Lemma joker_details_grouped (lines : list str) :
  joker_details lines = grouped (entries lines).
Proof.
  unfold joker_details, entries. rewrite loop_entries. apply fold_record_grouped.
Qed.
End AnalysisFacts.

Section ReconcilerFacts.
Import MissingJokersAnalysis.
Context {U : Unicode}.

Lemma keys_joker_details (lines : list str) :
  keys (joker_details lines) = distinct (map fst (entries lines)).
Proof. rewrite joker_details_grouped. apply keys_grouped. Qed.

Lemma missing_names_In (iset : list str) (jd : dict (list detail)) (name : str) :
  In name (missing_names iset jd)
  <-> In name (keys jd) /\ ~ In (lower (to_camel_case name)) iset.
Proof.
  unfold missing_names. rewrite filter_In, negb_true_iff, mem_not_In. reflexivity.
Qed.

Lemma NoDup_missing_names (iset : list str) (lines : list str) :
  NoDup (missing_names iset (joker_details lines)).
Proof.
  unfold missing_names. apply NoDup_filter.
  rewrite keys_joker_details. apply NoDup_distinct.
Qed.

Lemma duplicates_In (es : list (str * detail)) (n : str) (g : list detail) :
  In (n, g) (duplicates (grouped es))
  <-> In n (map fst es) /\ g = occurrences n es /\ 2 <= length g.
Proof.
  unfold duplicates. rewrite filter_In. unfold grouped. rewrite in_map_iff. simpl.
  split.
  - intros [(k & E & Hk) Hlen]. injection E as -> <-.
    rewrite In_distinct in Hk. apply Nat.ltb_lt in Hlen. auto.
  - intros (Hn & -> & Hlen). split.
    + exists n. split; [reflexivity | now rewrite In_distinct].
    + now apply Nat.ltb_lt.
Qed.

Lemma duplicates_keys (es : list (str * detail)) (n : str) :
  In n (keys (duplicates (grouped es))) <-> 2 <= count_name n (map fst es).
Proof.
  unfold keys. rewrite in_map_iff. split.
  - intros ([k g] & <- & H). apply duplicates_In in H as (_ & -> & H).
    simpl. now rewrite <- occurrences_length.
  - intros H. exists (n, occurrences n es). split; [reflexivity|].
    apply duplicates_In. rewrite occurrences_length.
    repeat split; [|assumption].
    unfold count_name in H.
    destruct (filter (str_eqb n) (map fst es)) as [|x l] eqn:E; [simpl in H; lia|].
    assert (Hx : In x (filter (str_eqb n) (map fst es))) by (rewrite E; now left).
    apply filter_In in Hx as [Hx Hxn]. apply str_eqb_eq in Hxn. now subst.
Qed.
End ReconcilerFacts.

(** ** ASCII text *)

(** Boolean comparisons of code points, turned into arithmetic. *)
Ltac code_points :=
  unfold is_alnum, is_letter, is_lower, is_upper, is_digit, is_ascii,
         ascii_isspace, ascii_tolower, ascii_toupper in *;
  repeat match goal with
  | H : _ && _ = true |- _ => apply andb_true_iff in H as [? ?]
  | H : _ || _ = true |- _ => apply orb_true_iff in H as [?|?]
  | H : _ || _ = false |- _ => apply orb_false_iff in H as [? ?]
  | H : negb _ = true |- _ => apply negb_true_iff in H
  | H : (_ <=? _)%N = true |- _ => apply N.leb_le in H
  | H : (_ <=? _)%N = false |- _ => apply N.leb_gt in H
  | H : (_ <? _)%N = true |- _ => apply N.ltb_lt in H
  | H : (_ <? _)%N = false |- _ => apply N.ltb_ge in H
  | H : (_ =? _)%N = true |- _ => apply N.eqb_eq in H
  | H : (_ =? _)%N = false |- _ => apply N.eqb_neq in H
  end.

Lemma is_alnum_ascii (c : N) : is_alnum c = true -> (c < 128)%N.
Proof. intros H. code_points; lia. Qed.

Lemma is_letter_ascii (c : N) : is_letter c = true -> (c < 128)%N.
Proof. intros H. code_points; lia. Qed.

Lemma ascii_db_compatible : ascii_compatible ascii_db.
Proof.
  constructor; simpl; try reflexivity.
  - intros c d Hc [<-|[<-|[]]].
    + assert (E : ascii_tolower c = c).
      { unfold ascii_tolower. destruct (is_upper c) eqn:Hu; [code_points; lia | reflexivity]. }
      rewrite E. split; [tauto | lia].
    + assert (E : ascii_toupper c = c).
      { unfold ascii_toupper. destruct (is_lower c) eqn:Hu; [code_points; lia | reflexivity]. }
      rewrite E. split; [tauto | lia].
  - split; reflexivity.
Qed.



(** ** C2: the general rule, statement *)




(** What the witness stands for: a first character beyond ASCII in title
    case, ASCII first letters in upper case, a capital inside a word in
    lower case. *)
Example general_rule_run :
  @to_camel_case dz_db ([454%N] ++ py "ip hiT-the road!")
  = [453%N] ++ py "ipHitTheRoad".
Proof. vm_compute. reflexivity. Qed.

Section AsciiText.
Context {U : Unicode}.
Hypothesis HU : ascii_compatible U.

Lemma do_lower_ascii (s before : str) :
  Forall (fun c => (c < 128)%N) s -> do_lower before s = map ascii_tolower s.
Proof.
  revert before; induction s as [|c s IH]; intros before H; [reflexivity|].
  apply Forall_cons_iff in H as [Hc Hs]. simpl.
  rewrite (IH _ Hs). unfold lower_ucs4.
  destruct (N.eqb c 931) eqn:E; [apply N.eqb_eq in E; lia|].
  now rewrite (lower_ascii HU).
Qed.

Lemma lower_ascii_text (s : str) :
  Forall (fun c => (c < 128)%N) s -> lower s = map ascii_tolower s.
Proof. apply do_lower_ascii. Qed.

(** Text that differs from an identifier in letter case only lowers to
    the same text. *)
Lemma same_ignoring_case_lower (a j : str) :
  forallb is_alnum j = true -> same_ignoring_case a j = true -> lower a = lower j.
Proof.
  intros Hj Hsame.
  assert (H : Forall (fun c => (c < 128)%N) a /\ Forall (fun c => (c < 128)%N) j
              /\ map ascii_tolower a = map ascii_tolower j).
  { revert j Hj Hsame. induction a as [|x a IH]; intros [|y j] Hj Hsame;
      simpl in *; try discriminate; [repeat constructor|].
    apply andb_true_iff in Hj as [Hy Hj].
    apply andb_true_iff in Hsame as [Hxy Hsame].
    destruct (IH j Hj Hsame) as (Ha & Hj' & E).
    pose proof (is_alnum_ascii _ Hy) as Hy'.
    apply orb_true_iff in Hxy as [Hxy|Hxy].
    - apply N.eqb_eq in Hxy. subst y.
      repeat split; try constructor; auto. now rewrite E.
    - apply andb_true_iff in Hxy as [Hl Hxy].
      apply andb_true_iff in Hl as [Hlx Hly].
      apply N.eqb_eq in Hxy.
      repeat split; try constructor; auto using is_letter_ascii.
      now rewrite E, Hxy. }
  destruct H as (Ha & Hj' & E).
  now rewrite !lower_ascii_text.
Qed.
End AsciiText.

(** ** C3: case-insensitive matching *)

Section Missing.
Import MissingJokersAnalysis.

(** C3.  A display name of the document is reported missing exactly when
    the lowered form of its canonical identifier is not among the lowered
    implemented identifiers; so a name whose canonical identifier differs
    from an implemented identifier in letter case only is never reported
    missing. *)
Theorem case_insensitive_missing (U : Unicode) (content : str) (impl lines : list str) :
  ascii_compatible U ->
  implemented content = Some impl ->
  let missing := missing_names (implemented_set impl) (joker_details lines) in
  (forall name,
      In name missing
      <-> In name (map fst (entries lines))
          /\ ~ In (lower (to_camel_case name)) (map lower impl))
  /\ (forall name j,
        In j impl -> same_ignoring_case (to_camel_case name) j = true ->
        ~ In name missing).
Proof.
  intros HU Himpl missing. split.
  - intros name. unfold missing. rewrite missing_names_In, keys_joker_details, In_distinct.
    reflexivity.
  - intros name j Hj Hsame Hin.
    apply missing_names_In in Hin as [_ Hin]. apply Hin.
    unfold implemented_set. apply in_map_iff. exists j. split; [|assumption].
    symmetry. apply same_ignoring_case_lower; [assumption | | assumption].
    unfold implemented in Himpl.
    destruct (macro_match content) as [mc|]; [|discriminate].
    injection Himpl as <-.
    pose proof (implemented_of_shape mc) as Hs.
    rewrite Forall_forall in Hs. specialize (Hs j Hj).
    destruct j as [|c r]; simpl in Hs; [discriminate|].
    apply andb_true_iff in Hs as [Hc Hr]. simpl.
    now rewrite (is_upper_alnum _ Hc).
Qed.

Lemma case_insensitive_missing_witness :
  let content := py "make_jokers!(MRBONES, Foo);" in
  let lines := [py "| 1 | Mr Bones | $5 | revive | Start |"] in
  implemented content = Some [py "MRBONES"; py "Foo"]
  /\ same_ignoring_case (@to_camel_case ascii_db (py "Mr Bones")) (py "MRBONES") = true
  /\ ~ In (py "Mr Bones")
        (@missing_names ascii_db (@implemented_set ascii_db [py "MRBONES"; py "Foo"])
                        (@joker_details ascii_db lines)).
Proof.
  intros content lines.
  assert (Hi : implemented content = Some [py "MRBONES"; py "Foo"])
    by (vm_compute; reflexivity).
  assert (Hs : same_ignoring_case (@to_camel_case ascii_db (py "Mr Bones")) (py "MRBONES") = true)
    by (vm_compute; reflexivity).
  split; [exact Hi|]. split; [exact Hs|].
  refine (proj2 (@case_insensitive_missing ascii_db content _ lines
                   ascii_db_compatible Hi) (py "Mr Bones") (py "MRBONES") _ Hs).
  simpl. left. reflexivity.
Defined.
End Missing.

(** ** C4: duplicate groups *)

Section Duplicates.
Import MissingJokersAnalysis.

(** C4.  The duplicate groups are the groups of the display names that
    occur at least twice among the rows: names in first-seen order, each
    with its rows (line, section and columns) in document order, and no
    group shorter than two.  For the rows Foo, Bar, Foo the only group is
    Foo with its first and its second row in that order, and the count of
    distinct names is 2. *)
Theorem duplicate_groups (U : Unicode) (impl lines : list str) :
  let es := entries lines in
  let dups := duplicates (joker_details lines) in
  dups = filter (fun g => 2 <=? length (snd g))
                (map (fun n => (n, occurrences n es)) (distinct (map fst es)))
  /\ (forall n, In n (keys dups) <-> 2 <= count_name n (map fst es))
  /\ (forall n g, In (n, g) dups -> g = occurrences n es /\ 2 <= length g)
  /\ (forall d1 d2 d3,
        es = [(py "Foo", d1); (py "Bar", d2); (py "Foo", d3)] ->
        dups = [(py "Foo", [d1; d3])]
        /\ total_unique (report_counts impl lines) = 2).
Proof.
  intros es dups. unfold dups, es. rewrite joker_details_grouped.
  split; [reflexivity|].
  split; [intros n; apply duplicates_keys|].
  split.
  - intros n g H. apply duplicates_In in H. tauto.
  - intros d1 d2 d3 H. simpl. rewrite joker_details_grouped, H.
    split; reflexivity.
Qed.

(** The rows of the example, read from a document. *)
Example foo_bar_foo_document :
  let lines := [ py "# Common Jokers";
                 py "| 1 | Foo | $2 | +4 Mult | Start |";
                 py "# Rare Jokers";
                 py "| 2 | Bar | $8 | X2 Mult | Start |";
                 py "# Uncommon Jokers";
                 py "| 3 | Foo | $5 | +4 Mult | Start |" ] in
  map (fun e => (fst e, section (snd e), line (snd e))) (@entries ascii_db lines)
  = [(py "Foo", Common, 2); (py "Bar", Rare, 4); (py "Foo", Uncommon, 6)]
  /\ map (fun g => (fst g, map section (snd g)))
         (duplicates (@joker_details ascii_db lines))
     = [(py "Foo", [Common; Uncommon])]
  /\ length (@joker_details ascii_db lines) = 2.
Proof. vm_compute. repeat split. Qed.

End Duplicates.

(** ** C5: every distinct name is accounted for *)

Lemma classify_cases (missing duplicated : list str) (name : str) :
  (classify missing duplicated name = FullyMatched
     <-> ~ In name missing /\ ~ In name duplicated)
  /\ (classify missing duplicated name = MissingOnly
     <-> In name missing /\ ~ In name duplicated)
  /\ (classify missing duplicated name = DuplicateOnly
     <-> ~ In name missing /\ In name duplicated)
  /\ (classify missing duplicated name = MissingAndDuplicate
     <-> In name missing /\ In name duplicated).
Proof.
  unfold classify.
  destruct (mem name missing) eqn:Em, (mem name duplicated) eqn:Ed;
    first [apply mem_In in Em | apply mem_not_In in Em];
    first [apply mem_In in Ed | apply mem_not_In in Ed];
    repeat split; intros; try discriminate; try tauto.
Qed.

Section Partition.
Import MissingJokersAnalysis.

(** C5.  Every display name of the document is a key of the dictionary,
    once; it is reported missing exactly when its canonical identifier is
    not implemented, whether or not it is duplicated, and reported
    duplicated exactly when it occurs twice or more, whether or not it is
    implemented; so it falls under exactly one of the four findings: fully
    matched, missing only, duplicated only, missing and duplicated. *)
Theorem partition_complete (U : Unicode) (impl lines : list str) (name : str) :
  In name (map fst (entries lines)) ->
  let jd := joker_details lines in
  let missing := missing_names (implemented_set impl) jd in
  let duplicated := keys (duplicates jd) in
  In name (keys jd) /\ NoDup (keys jd)
  /\ (In name missing <-> ~ In (lower (to_camel_case name)) (implemented_set impl))
  /\ (In name duplicated <-> 2 <= count_name name (map fst (entries lines)))
  /\ (forall lines', In name (map fst (entries lines')) ->
        (In name (missing_names (implemented_set impl) (joker_details lines'))
         <-> In name missing))
  /\ (classify missing duplicated name = FullyMatched
        <-> ~ In name missing /\ ~ In name duplicated)
  /\ (classify missing duplicated name = MissingOnly
        <-> In name missing /\ ~ In name duplicated)
  /\ (classify missing duplicated name = DuplicateOnly
        <-> ~ In name missing /\ In name duplicated)
  /\ (classify missing duplicated name = MissingAndDuplicate
        <-> In name missing /\ In name duplicated).
Proof.
  intros Hname jd missing duplicated.
  assert (Hkey : In name (keys jd)).
  { unfold jd. rewrite keys_joker_details. now rewrite In_distinct. }
  assert (Hmiss : In name missing
                  <-> ~ In (lower (to_camel_case name)) (implemented_set impl)).
  { unfold missing. rewrite missing_names_In. tauto. }
  split; [exact Hkey|].
  split; [unfold jd; rewrite keys_joker_details; apply NoDup_distinct|].
  split; [exact Hmiss|].
  split.
  { unfold duplicated, jd. rewrite joker_details_grouped. apply duplicates_keys. }
  split.
  { intros lines' Hname'. rewrite Hmiss, missing_names_In, keys_joker_details, In_distinct.
    tauto. }
  apply classify_cases.
Qed.

Lemma partition_complete_witness :
  let lines := [ py "| 1 | Foo | $2 | +4 Mult | Start |";
                 py "| 2 | Bar | $8 | X2 Mult | Start |";
                 py "| 3 | Foo | $5 | +4 Mult | Start |" ] in
  In (py "Foo") (map fst (@entries ascii_db lines))
  /\ In (py "Foo") (keys (@joker_details ascii_db lines)).
Proof.
  intros lines.
  assert (H : In (py "Foo") (map fst (@entries ascii_db lines)))
    by (vm_compute; left; reflexivity).
  split; [exact H|].
  exact (proj1 (@partition_complete ascii_db [py "Bar"] lines (py "Foo") H)).
Defined.

(** The four findings all occur, in one document. *)
Example four_findings :
  let lines := [ py "| 1 | Foo | $2 | +4 Mult | Start |";
                 py "| 2 | Bar | $8 | X2 Mult | Start |";
                 py "| 3 | Foo | $5 | +4 Mult | Start |";
                 py "| 4 | Baz | $5 | +4 Mult | Start |";
                 py "| 5 | Qux | $5 | +4 Mult | Start |";
                 py "| 6 | Qux | $5 | +4 Mult | Start |" ] in
  let jd := @joker_details ascii_db lines in
  let missing := @missing_names ascii_db (@implemented_set ascii_db [py "Bar"; py "Qux"]) jd in
  map (classify missing (keys (duplicates jd))) (keys jd)
  = [MissingAndDuplicate; FullyMatched; MissingOnly; DuplicateOnly].
Proof. vm_compute. reflexivity. Qed.

End Partition.

(** ** The two scripts agree on names and on missing names *)

Lemma stdout_print (A : Type) (s : str) (k : unit -> script A) :
  stdout (bind (print s) k) = s :: stdout (k tt).
Proof. unfold stdout, bind, print. now destruct (k tt). Qed.

Lemma bind_ret (A B : Type) (a : A) (k : A -> script B) : bind (ret a) k = k a.
Proof. unfold bind, ret. now destruct (k a). Qed.

Section TwoScripts.
Context {U : Unicode}.

Lemma keys_dict_set (V : Type) (k : str) (v : V) (d : dict V) :
  keys (dict_set k v d) = if mem k (keys d) then keys d else keys d ++ [k].
Proof.
  induction d as [|[k' v'] d IH]; simpl; [reflexivity|].
  destruct (str_eqb k k') eqn:E; simpl.
  - apply str_eqb_eq in E. now subst.
  - rewrite IH. now destruct (mem k (keys d)).
Qed.

Lemma keys_record_row (jd : dict (list MissingJokersAnalysis.detail)) (n : str)
      (d : MissingJokersAnalysis.detail) :
  keys (MissingJokersAnalysis.record_row jd n d)
  = if mem n (keys jd) then keys jd else keys jd ++ [n].
Proof.
  unfold MissingJokersAnalysis.record_row.
  destruct (dict_mem n jd) eqn:Hm; simpl.
  - pose proof Hm as Hin. apply dict_mem_In in Hin.
    unfold dict_mem in Hm. destruct (dict_get n jd); [|discriminate].
    rewrite keys_dict_set. apply mem_In in Hin. now rewrite Hin.
  - assert (Hn : ~ In n (keys jd)) by (intros H; apply dict_mem_In in H; congruence).
    rewrite dict_set_absent, dict_get_last, dict_set_last by assumption.
    apply mem_not_In in Hn. rewrite Hn.
    unfold keys. now rewrite !map_app.
Qed.

Lemma same_keys_loop (lines : list str) (i j : nat)
      (cs : MissingJokersAnalysis.section_name)
      (jdF : dict FindMissing.detail) (jdM : dict (list MissingJokersAnalysis.detail)) :
  keys jdF = keys jdM ->
  keys (fold_left FindMissing.loop_body (enumerate i lines) jdF)
  = keys (snd (fold_left MissingJokersAnalysis.loop_body (enumerate j lines) (cs, jdM))).
Proof.
  revert i j cs jdF jdM; induction lines as [|l lines IH]; intros i j cs jdF jdM E;
    [exact E|].
  change (enumerate i (l :: lines)) with ((i, l) :: enumerate (S i) lines).
  change (enumerate j (l :: lines)) with ((j, l) :: enumerate (S j) lines).
  cbn [fold_left].
  unfold MissingJokersAnalysis.loop_body at 2, MissingJokersAnalysis.read_line,
         FindMissing.loop_body at 2.
  destruct (row_match l) as [[[[[num name] cost] effect] unlock]|]; apply IH;
    [|exact E].
  now rewrite keys_dict_set, keys_record_row, E.
Qed.

(** Both scripts file the rows under the same names, in the same order. *)
Lemma same_keys (lines : list str) :
  keys (FindMissing.joker_details lines) = keys (MissingJokersAnalysis.joker_details lines).
Proof. apply same_keys_loop. reflexivity. Qed.

Lemma implemented_lower_keys (impl : list str) (d : dict str) (k : str) :
  In k (keys (fold_left (fun d j => dict_set (lower j) j d) impl d))
  <-> In k (keys d) \/ In k (map lower impl).
Proof.
  revert d; induction impl as [|j impl IH]; intros d; simpl; [tauto|].
  rewrite IH, keys_dict_set.
  destruct (mem (lower j) (keys d)) eqn:E.
  - apply mem_In in E. intuition (subst; auto).
  - rewrite in_app_iff. simpl. tauto.
Qed.

Lemma implemented_lower_mem (impl : list str) (k : str) :
  dict_mem k (FindMissing.implemented_lower impl)
  = mem k (MissingJokersAnalysis.implemented_set impl).
Proof.
  unfold FindMissing.implemented_lower, MissingJokersAnalysis.implemented_set.
  destruct (mem k (map lower impl)) eqn:E.
  - apply dict_mem_In, implemented_lower_keys. right. now apply mem_In.
  - apply mem_not_In in E.
    destruct (dict_mem k _) eqn:E'; [|reflexivity].
    apply dict_mem_In, implemented_lower_keys in E'. simpl in E'. tauto.
Qed.

Lemma check_name_bound (il : dict str) (n : str) (acc : list str) :
  FindMissing.check_name (Some il) n acc
  = ret (if negb (dict_mem (lower (to_camel_case n)) il) then acc ++ [n] else acc).
Proof. unfold FindMissing.check_name, load. apply bind_ret. Qed.

Lemma check_names (il : dict str) (names acc : list str) :
  for_each names (FindMissing.check_name (Some il)) acc
  = ret (acc ++ filter (fun n => negb (dict_mem (lower (to_camel_case n)) il)) names).
Proof.
  revert acc; induction names as [|n names IH]; intros acc; cbn [for_each filter].
  - now rewrite app_nil_r.
  - rewrite check_name_bound, bind_ret, IH.
    destruct (negb (dict_mem (lower (to_camel_case n)) il)); [|reflexivity].
    now rewrite <- app_assoc.
Qed.

(** The loop of line 61 of [find_missing.py] computes the missing names of
    [missing_jokers_analysis.py]. *)
Lemma check_names_missing (impl lines : list str) :
  for_each (keys (FindMissing.joker_details lines))
           (FindMissing.check_name (Some (FindMissing.implemented_lower impl))) []
  = ret (MissingJokersAnalysis.missing_names
           (MissingJokersAnalysis.implemented_set impl)
           (MissingJokersAnalysis.joker_details lines)).
Proof.
  rewrite check_names, same_keys. simpl. f_equal. f_equal.
  apply filter_ext. intros n. now rewrite implemented_lower_mem.
Qed.

(** The three counts [find_missing.py] prints first. *)
Lemma find_missing_counts (content : str) (impl lines : list str) :
  implemented content = Some impl ->
  exists rest,
    stdout (FindMissing.main content lines)
    = (py "Total in JOKERS.md: "
         ++ str_of_nat (length (MissingJokersAnalysis.joker_details lines)))
      :: (py "Total implemented: " ++ str_of_nat (length impl))
      :: (py "Missing: "
            ++ str_of_nat (length (MissingJokersAnalysis.missing_names
                                     (MissingJokersAnalysis.implemented_set impl)
                                     (MissingJokersAnalysis.joker_details lines))))
      :: rest.
Proof.
  intros H. unfold FindMissing.main. rewrite H. cbn [option_map].
  rewrite check_names_missing, bind_ret, stdout_print. cbn [load].
  rewrite bind_ret, stdout_print, stdout_print.
  eexists. f_equal.
  unfold keys. rewrite <- (length_map fst (FindMissing.joker_details lines)).
  fold (keys (FindMissing.joker_details lines)). rewrite same_keys.
  unfold keys. now rewrite length_map.
Qed.
End TwoScripts.

(** ** C6: the counts *)

Lemma filter_over_map (A B : Type) (f : A -> B) (p : B -> bool) (l : list A) :
  filter p (map f l) = map f (filter (fun x => p (f x)) l).
Proof.
  induction l as [|x l IH]; simpl; [reflexivity|].
  destruct (p (f x)); simpl; now rewrite IH.
Qed.

Section Counts.
Import MissingJokersAnalysis.

(** When the macro names an identifier twice the script counts both, and
    the set of implemented identifiers has one element. *)
Lemma implemented_count_counterexample :
  let content := py "make_jokers!(Foo, Foo);" in
  implemented content = Some [py "Foo"; py "Foo"]
  /\ total_implemented (@report_counts ascii_db [py "Foo"; py "Foo"] []) = 2
  /\ cardinality [py "Foo"; py "Foo"] = 1.
Proof. vm_compute. repeat split. Qed.

(** C6, as it holds of the scripts.  The implemented count is the number
    of identifier tokens extracted, repeats included, and it is the number
    of implemented identifiers exactly when no identifier is repeated; the
    unique count is
    the number of distinct display names among the rows; the duplicate
    count is the number of duplicate groups, one per distinct name that
    occurs twice or more; the missing count is the number of names in the
    missing set.  [find_missing.py] prints the same unique, implemented and
    missing counts as its first three lines. *)
Theorem report_counts_correct (U : Unicode) (impl lines : list str) :
  let c := report_counts impl lines in
  let names := map fst (entries lines) in
  total_implemented c = length impl
  /\ (total_implemented c = cardinality impl <-> NoDup impl)
  /\ total_unique c = cardinality names
  /\ total_duplicates c = length (duplicates (joker_details lines))
  /\ total_duplicates c
     = length (filter (fun n => 2 <=? count_name n names) (distinct names))
  /\ total_missing c
     = cardinality (missing_names (implemented_set impl) (joker_details lines))
  /\ (forall content, implemented content = Some impl ->
        exists rest,
          stdout (FindMissing.main content lines)
          = (py "Total in JOKERS.md: " ++ str_of_nat (total_unique c))
            :: (py "Total implemented: " ++ str_of_nat (total_implemented c))
            :: (py "Missing: " ++ str_of_nat (total_missing c))
            :: rest).
Proof.
  intros c names. unfold c, names. simpl.
  split; [reflexivity|].
  split.
  { unfold cardinality. split.
    - intros H. clear c names.
      induction impl as [|x l IH] using rev_ind; [constructor|].
      rewrite distinct_snoc, mem_distinct in H.
      pose proof (NoDup_distinct l) as Hd.
      assert (Hle : length (distinct l) <= length l).
      { clear. induction l as [|y l IH] using rev_ind; [reflexivity|].
        rewrite distinct_snoc, length_app. simpl.
        destruct (mem y (distinct l)); rewrite ?length_app; simpl; lia. }
      rewrite length_app in H. simpl in H.
      destruct (mem x l) eqn:E; [lia|].
      rewrite length_app in H. simpl in H.
      apply mem_not_In in E.
      apply NoDup_app; [apply IH; lia | repeat constructor; auto |].
      intros y Hy [<-|[]]. contradiction.
    - intros H. now rewrite distinct_NoDup_id. }
  split.
  { unfold cardinality. rewrite <- keys_joker_details. unfold keys. now rewrite length_map. }
  split; [reflexivity|].
  split.
  { rewrite joker_details_grouped. unfold duplicates, grouped.
    rewrite filter_over_map, length_map. f_equal.
    apply filter_ext. intros n. simpl. now rewrite occurrences_length. }
  split.
  { unfold cardinality. now rewrite distinct_NoDup_id by apply NoDup_missing_names. }
  intros content Himpl. now apply find_missing_counts.
Qed.

End Counts.

(** ** C10: the raw display name is the key *)

Section RawNames.
Import MissingJokersAnalysis.
Context {U : Unicode}.

Lemma read_line_line (cs cs' : section_name) (il : nat * str) (e : str * detail) :
  read_line cs il = (cs', Some e) -> line (snd e) = fst il.
Proof.
  unfold read_line. destruct il as [i l].
  destruct (row_match l) as [[[[[num name] cost] effect] unlock]|]; [|discriminate].
  intros H. injection H as _ <-. reflexivity.
Qed.

Lemma entries_from_lines (l : list (nat * str)) (cs : section_name) (e : str * detail) :
  In e (entries_from cs l) -> In (line (snd e)) (map fst l).
Proof.
  revert cs; induction l as [|il l IH]; intros cs; simpl; [tauto|].
  destruct (read_line cs il) as [cs' [e'|]] eqn:E.
  - intros [<-|H]; [left; symmetry; eapply read_line_line; eassumption | right; eauto].
  - intros H. right. eauto.
Qed.

Lemma entries_from_NoDup (l : list (nat * str)) (cs : section_name) :
  NoDup (map fst l) -> NoDup (map (fun e => line (snd e)) (entries_from cs l)).
Proof.
  revert cs; induction l as [|il l IH]; intros cs Hnd; simpl; [constructor|].
  apply NoDup_cons_iff in Hnd as [Hil Hnd].
  destruct (read_line cs il) as [cs' [e'|]] eqn:E; [|now apply IH].
  simpl. constructor; [|now apply IH].
  intros H. apply in_map_iff in H as (e & He & Hin).
  apply entries_from_lines in Hin.
  rewrite He, (read_line_line _ _ E) in Hin. contradiction.
Qed.

Lemma enumerate_fst (A : Type) (start : nat) (l : list A) :
  map fst (enumerate start l) = seq start (length l).
Proof.
  unfold enumerate. revert start; induction l as [|x l IH]; intros start; simpl;
    [reflexivity | now rewrite IH].
Qed.

Lemma NoDup_map_eq (A B : Type) (f : A -> B) (l : list A) (x y : A) :
  NoDup (map f l) -> In x l -> In y l -> f x = f y -> x = y.
Proof.
  induction l as [|a l IH]; simpl; [tauto|].
  intros Hnd. apply NoDup_cons_iff in Hnd as [Ha Hnd].
  intros [<-|Hx] [<-|Hy] E; auto.
  - exfalso. apply Ha. rewrite E. now apply in_map.
  - exfalso. apply Ha. rewrite <- E. now apply in_map.
Qed.

(** No two rows come from the same line. *)
Lemma entries_line_inj (lines : list str) (e1 e2 : str * detail) :
  In e1 (entries lines) -> In e2 (entries lines) ->
  line (snd e1) = line (snd e2) -> e1 = e2.
Proof.
  unfold entries.
  pose proof (@entries_from_NoDup (enumerate 1 lines) Unknown) as Hnd.
  rewrite enumerate_fst in Hnd. specialize (Hnd (seq_NoDup _ _)).
  intros H1 H2 E.
  exact (NoDup_map_eq (fun e => line (snd e)) _ _ _ Hnd H1 H2 E).
Qed.
End RawNames.

Section RawNameKey.
Import MissingJokersAnalysis.

(** C10.  Two rows whose display names are different strings are never in
    the same duplicate group, even when their canonical identifiers
    coincide: each of the two names is a key of its own, counted once in
    the number of distinct names, and each is tested against the
    implemented identifiers on its own, with the same outcome since the
    canonical identifier is the same. *)
Theorem raw_name_is_key (U : Unicode) (impl lines : list str)
        (n1 n2 : str) (d1 d2 : detail) :
  In (n1, d1) (entries lines) -> In (n2, d2) (entries lines) ->
  n1 <> n2 -> to_camel_case n1 = to_camel_case n2 ->
  let jd := joker_details lines in
  let missing := missing_names (implemented_set impl) jd in
  (forall n g, In (n, g) (duplicates jd) -> ~ (In d1 g /\ In d2 g))
  /\ (forall n g, In (n, g) jd -> In d1 g -> n = n1)
  /\ count_name n1 (keys jd) = 1 /\ count_name n2 (keys jd) = 1
  /\ 2 <= total_unique (report_counts impl lines)
  /\ (In n1 missing <-> ~ In (lower (to_camel_case n1)) (implemented_set impl))
  /\ (In n2 missing <-> ~ In (lower (to_camel_case n2)) (implemented_set impl))
  /\ (In n1 missing <-> In n2 missing).
Proof.
  intros H1 H2 Hneq Hcamel jd missing.
  assert (Hgroup : forall n g d n', In (n, g) jd -> In d g -> In (n', d) (entries lines) -> n = n').
  { intros n g d n' Hg Hd Hn'. unfold jd in Hg. rewrite joker_details_grouped in Hg.
    unfold grouped in Hg. apply in_map_iff in Hg as (k & E & _). injection E as -> <-.
    apply occurrences_In in Hd.
    pose proof (entries_line_inj _ _ _ Hd Hn' eq_refl) as E. congruence. }
  assert (Hk : forall n d, In (n, d) (entries lines) -> In n (keys jd)).
  { intros n d Hn. unfold jd. rewrite keys_joker_details, In_distinct.
    apply in_map_iff. now exists (n, d). }
  assert (Hnd : NoDup (keys jd)).
  { unfold jd. rewrite keys_joker_details. apply NoDup_distinct. }
  assert (Hcount : forall n, In n (keys jd) -> count_name n (keys jd) = 1).
  { intros n. unfold count_name. clear -Hnd.
    induction (keys jd) as [|k ks IH]; simpl; [tauto|].
    apply NoDup_cons_iff in Hnd as [Hk Hnd]. intros [->|Hin].
    - rewrite str_eqb_refl. simpl. f_equal.
      destruct (filter (str_eqb n) ks) as [|x l] eqn:E; [reflexivity|].
      assert (Hx : In x (filter (str_eqb n) ks)) by (rewrite E; now left).
      apply filter_In in Hx as [Hx Hxn]. apply str_eqb_eq in Hxn. now subst.
    - destruct (str_eqb n k) eqn:E; [apply str_eqb_eq in E; now subst|].
      now apply IH. }
  split.
  { intros n g Hg [Hd1 Hd2].
    assert (Hjd : In (n, g) jd) by (unfold duplicates in Hg; now apply filter_In in Hg).
    apply Hneq. rewrite <- (Hgroup n g d1 n1 Hjd Hd1 H1).
    exact (Hgroup n g d2 n2 Hjd Hd2 H2). }
  split; [intros n g Hg Hd; exact (Hgroup n g d1 n1 Hg Hd H1)|].
  split; [eapply Hcount, Hk; eauto|].
  split; [eapply Hcount, Hk; eauto|].
  split.
  { simpl. fold jd. rewrite <- (length_map fst). fold (keys jd).
    pose proof (Hk _ _ H1) as K1. pose proof (Hk _ _ H2) as K2.
    destruct (keys jd) as [|a [|b ks]]; simpl in *; try lia.
    destruct K1 as [<-|[]], K2 as [<-|[]]. congruence. }
  unfold missing. rewrite !missing_names_In, <- Hcamel.
  pose proof (Hk _ _ H1). pose proof (Hk _ _ H2). tauto.
Qed.

Lemma raw_name_is_key_witness :
  let lines := [ py "| 1 | Oops | $2 | +4 Mult | Start |";
                 py "| 2 | Oops! | $8 | X2 Mult | Start |" ] in
  2 <= total_unique (@report_counts ascii_db [py "Oops"] lines).
Proof.
  intros lines.
  set (d1 := {| line := 1; section := Unknown; num := py "1"; cost := py "2";
                effect := py "+4 Mult"; unlock := py "Start" |}).
  set (d2 := {| line := 2; section := Unknown; num := py "2"; cost := py "8";
                effect := py "X2 Mult"; unlock := py "Start" |}).
  assert (H1 : In (py "Oops", d1) (@entries ascii_db lines))
    by (vm_compute; left; reflexivity).
  assert (H2 : In (py "Oops!", d2) (@entries ascii_db lines))
    by (vm_compute; right; left; reflexivity).
  assert (Hneq : py "Oops" <> py "Oops!") by (vm_compute; discriminate).
  assert (Hc : @to_camel_case ascii_db (py "Oops") = @to_camel_case ascii_db (py "Oops!"))
    by (vm_compute; reflexivity).
  exact (proj1 (proj2 (proj2 (proj2 (proj2
    (@raw_name_is_key ascii_db [py "Oops"] lines _ _ d1 d2 H1 H2 Hneq Hc)))))).
Defined.

End RawNameKey.

(** ** C7: the shape of a canonical identifier *)

(** A full stop is punctuation the general rule keeps. *)
Lemma punctuation_counterexample :
  ~ In (py "Mr. Bones") override_keys
  /\ @to_camel_case ascii_db (py "Mr. Bones") = py "Mr.Bones"
  /\ existsb is_punct (@to_camel_case ascii_db (py "Mr. Bones")) = true.
Proof.
  split; [apply mem_not_In; vm_compute; reflexivity|].
  split; vm_compute; reflexivity.
Qed.

Section Identifier.
Context {U : Unicode}.
Hypothesis HU : ascii_compatible U.

Lemma spec_words_from_clean (s : str) :
  let (w, ws) := spec_words_from s in
  Forall (fun c => isspace c = false) w
  /\ Forall (fun w => w <> [] /\ Forall (fun c => isspace c = false) w) ws
  /\ w ++ concat ws = filter (fun c => negb (isspace c)) s.
Proof.
  induction s as [|c r IH]; simpl; [repeat split; constructor|].
  destruct (spec_words_from r) as [w ws]. destruct IH as (Hw & Hws & E).
  destruct (isspace c) eqn:Hc; simpl.
  - split; [constructor|]. destruct w as [|x w]; simpl; [now split|].
    split; [|assumption]. constructor; [|assumption]. split; [discriminate | assumption].
  - repeat split; [constructor; assumption | assumption | now rewrite E].
Qed.

Lemma split_words (s : str) :
  Forall (fun w => w <> [] /\ Forall (fun c => isspace c = false) w) (split s)
  /\ concat (split s) = filter (fun c => negb (isspace c)) s.
Proof.
  rewrite split_spec_words. unfold spec_words.
  pose proof (spec_words_from_clean s) as H.
  destruct (spec_words_from s) as [w ws]. destruct H as (Hw & Hws & E).
  destruct w as [|x w]; simpl; [now split|].
  split; [|assumption]. constructor; [|assumption]. split; [discriminate | assumption].
Qed.

(** A case mapping of a character the rule does not remove yields none of
    the characters the rule removes, and keeps digits. *)
Lemma case_map_kept (c d : N) :
  removed c = false -> In d (tolower_full c ++ totitle_full c) -> removed d = false.
Proof.
  intros Hc Hd. unfold removed in *.
  destruct (N.ltb_spec c 128) as [Hlt|Hge].
  - rewrite (lower_ascii HU), (title_ascii HU) in Hd by assumption.
    rewrite (space_ascii HU) in Hc by assumption.
    assert (Hd' : (d < 128)%N /\ ascii_isspace d = false
                  /\ d <> 39%N /\ d <> 33%N /\ d <> 45%N).
    { destruct Hd as [<-|[<-|[]]].
      - unfold ascii_tolower. destruct (is_upper c) eqn:Eu.
        + repeat split; try (code_points; lia).
          destruct (ascii_isspace (c + 32)) eqn:Es; [code_points; lia | reflexivity].
        + code_points. repeat split; try lia.
          unfold ascii_isspace. apply orb_false_iff. split; assumption.
      - unfold ascii_toupper. destruct (is_lower c) eqn:Eu.
        + repeat split; try (code_points; lia).
          destruct (ascii_isspace (c - 32)) eqn:Es; [code_points; lia | reflexivity].
        + code_points. repeat split; try lia.
          unfold ascii_isspace. apply orb_false_iff. split; assumption. }
    destruct Hd' as (Hd1 & Hd2 & Hd3 & Hd4 & Hd5).
    rewrite (space_ascii HU), Hd2 by assumption.
    apply N.eqb_neq in Hd3, Hd4, Hd5. now rewrite Hd3, Hd4, Hd5.
  - destruct (@case_beyond_ascii U HU c d Hge Hd) as [Hs Hl].
    apply orb_false_iff in Hc as [Hc _]. apply orb_false_iff in Hc as [Hc _].
    apply orb_false_iff in Hc as [Hc _]. rewrite (Hs Hc). simpl.
    destruct (N.ltb_spec d 128) as [Hlt|Hge'].
    + specialize (Hl Hlt).
      destruct (N.eqb d 39) eqn:E1; [code_points; lia|].
      destruct (N.eqb d 33) eqn:E2; [code_points; lia|].
      destruct (N.eqb d 45) eqn:E3; [code_points; lia|]. reflexivity.
    + destruct (N.eqb d 39) eqn:E1; [code_points; lia|].
      destruct (N.eqb d 33) eqn:E2; [code_points; lia|].
      destruct (N.eqb d 45) eqn:E3; [code_points; lia|]. reflexivity.
Qed.

Lemma case_map_digits (c : N) :
  filter is_digit (tolower_full c) = filter is_digit [c]
  /\ filter is_digit (totitle_full c) = filter is_digit [c].
Proof.
  destruct (N.ltb_spec c 128) as [Hlt|Hge].
  - rewrite (lower_ascii HU), (title_ascii HU) by assumption. simpl.
    unfold ascii_tolower, ascii_toupper.
    destruct (is_upper c) eqn:Eu, (is_lower c) eqn:El, (is_digit c) eqn:Ed;
      try (code_points; lia); split; try reflexivity.
    all: try (destruct (is_digit (c + 32)) eqn:E; [code_points; lia | reflexivity]).
    all: try (destruct (is_digit (c - 32)) eqn:E; [code_points; lia | reflexivity]).
  - assert (Hc : is_digit c = false).
    { destruct (is_digit c) eqn:E; [code_points; lia | reflexivity]. }
    simpl. rewrite Hc.
    assert (H : forall l, (forall d, In d l -> In d (tolower_full c ++ totitle_full c)) ->
                          filter is_digit l = []).
    { induction l as [|d l IH]; intros Hl; [reflexivity|]. simpl.
      destruct (@case_beyond_ascii U HU c d Hge (Hl d (or_introl eq_refl))) as [_ Hd].
      destruct (is_digit d) eqn:E.
      - assert (d < 128)%N by (code_points; lia). specialize (Hd H). code_points; lia.
      - apply IH. intros x Hx. apply Hl. now right. }
    split; apply H; intros d Hd; apply in_or_app; auto.
Qed.

Lemma lower_ucs4_kept (before_rev after : str) (c d : N) :
  removed c = false -> In d (lower_ucs4 before_rev after c) -> removed d = false.
Proof.
  intros Hc Hd. unfold lower_ucs4 in Hd. destruct (N.eqb c 931) eqn:E.
  - destruct Hd as [<-|[]]. unfold handle_capital_sigma, removed.
    destruct (sigma_not_space HU) as [H2 H3].
    repeat match goal with |- context [if ?b then _ else _] => destruct b end;
      rewrite ?H2, ?H3; reflexivity.
  - eapply case_map_kept; [eassumption | apply in_or_app; now left].
Qed.

Lemma lower_ucs4_digits (before_rev after : str) (c : N) :
  filter is_digit (lower_ucs4 before_rev after c) = filter is_digit [c].
Proof.
  unfold lower_ucs4. destruct (N.eqb c 931) eqn:E.
  - apply N.eqb_eq in E. subst. unfold handle_capital_sigma.
    repeat match goal with |- context [if ?b then _ else _] => destruct b end; reflexivity.
  - apply case_map_digits.
Qed.

Lemma do_lower_kept (s before_rev : str) :
  Forall (fun c => removed c = false) s ->
  Forall (fun c => removed c = false) (do_lower before_rev s).
Proof.
  revert before_rev; induction s as [|c s IH]; intros before_rev H; [constructor|].
  apply Forall_cons_iff in H as [Hc Hs]. simpl. apply Forall_app. split; [|now apply IH].
  apply Forall_forall. intros d Hd. eapply lower_ucs4_kept; eassumption.
Qed.

Lemma do_lower_digits (s before_rev : str) :
  filter is_digit (do_lower before_rev s) = filter is_digit s.
Proof.
  revert before_rev; induction s as [|c s IH]; intros before_rev; [reflexivity|].
  cbn [do_lower]. rewrite filter_app, IH, lower_ucs4_digits.
  change (c :: s) with ([c] ++ s). now rewrite filter_app.
Qed.

Lemma capitalize_kept (w : str) :
  Forall (fun c => removed c = false) w ->
  Forall (fun c => removed c = false) (capitalize w).
Proof.
  destruct w as [|c r]; intros H; [constructor|].
  apply Forall_cons_iff in H as [Hc Hr]. simpl. apply Forall_app. split.
  - apply Forall_forall. intros d Hd.
    eapply case_map_kept; [eassumption | apply in_or_app; now right].
  - now apply do_lower_kept.
Qed.

Lemma capitalize_digits (w : str) :
  filter is_digit (capitalize w) = filter is_digit w.
Proof.
  destruct w as [|c r]; [reflexivity|]. simpl capitalize.
  rewrite filter_app, do_lower_digits, (proj2 (case_map_digits c)).
  change (c :: r) with ([c] ++ r). now rewrite filter_app.
Qed.
End Identifier.

Section IdentifierShape.
Context {U : Unicode}.
Hypothesis HU : ascii_compatible U.

Lemma unpunctuated_chars (name : str) (c : N) :
  In c (unpunctuated name) -> c <> 39%N /\ c <> 33%N /\ c <> 45%N.
Proof.
  unfold unpunctuated. change (py " ") with [32%N].
  rewrite replace_one, !replace_delete, filter_filter.
  intros H. apply in_map_iff in H as (x & <- & Hx).
  apply filter_In in Hx as [_ Hx].
  apply andb_true_iff in Hx as [H39 H33].
  apply negb_true_iff, N.eqb_neq in H39, H33.
  destruct (N.eqb x 45) eqn:E; [repeat split; discriminate|].
  apply N.eqb_neq in E. auto.
Qed.

Lemma unpunctuated_digits (name : str) :
  filter is_digit (unpunctuated name) = filter is_digit name.
Proof.
  unfold unpunctuated. change (py " ") with [32%N].
  rewrite replace_one, !replace_delete, filter_filter.
  induction name as [|c r IH]; [reflexivity|]. simpl.
  destruct (N.eqb c 39) eqn:E1; simpl.
  { apply N.eqb_eq in E1. subst. simpl. exact IH. }
  destruct (N.eqb c 33) eqn:E2; simpl.
  { apply N.eqb_eq in E2. subst. simpl. exact IH. }
  destruct (N.eqb c 45) eqn:E3.
  { apply N.eqb_eq in E3. subst. simpl. exact IH. }
  destruct (is_digit c); now rewrite IH.
Qed.

Lemma digits_not_space (s : str) :
  filter is_digit (filter (fun c => negb (isspace c)) s) = filter is_digit s.
Proof.
  induction s as [|c r IH]; [reflexivity|]. simpl.
  destruct (isspace c) eqn:Es; simpl.
  - destruct (is_digit c) eqn:Ed; [|exact IH].
    assert (Hc : (c < 128)%N) by (code_points; lia).
    rewrite (space_ascii HU) in Es by assumption. code_points; lia.
  - destruct (is_digit c); now rewrite IH.
Qed.

Lemma capitalized_digits (ws : list str) :
  filter is_digit (concat (map capitalize ws)) = filter is_digit (concat ws).
Proof.
  induction ws as [|w ws IH]; [reflexivity|]. simpl.
  now rewrite !filter_app, IH, (capitalize_digits HU).
Qed.

Lemma words_kept (name : str) :
  Forall (fun w => w <> [] /\ Forall (fun c => removed c = false) w)
         (split (unpunctuated name)).
Proof.
  destruct (split_words (unpunctuated name)) as [Hw Hc].
  rewrite Forall_forall in Hw |- *. intros w Hin.
  destruct (Hw w Hin) as [Hne Hsp]. split; [assumption|].
  rewrite Forall_forall in Hsp |- *. intros c Hcw.
  assert (Hs : In c (unpunctuated name)).
  { assert (H : In c (concat (split (unpunctuated name))))
      by (apply in_concat; eauto).
    rewrite Hc in H. now apply filter_In in H. }
  apply unpunctuated_chars in Hs as (H39 & H33 & H45).
  unfold removed. rewrite (Hsp c Hcw).
  apply N.eqb_neq in H39, H33, H45. now rewrite H39, H33, H45.
Qed.

Lemma general_rule_kept (name : str) :
  Forall (fun c => removed c = false) (general_rule name).
Proof.
  unfold general_rule, join_empty. fold (unpunctuated name).
  pose proof (words_kept name) as Hw.
  induction (split (unpunctuated name)) as [|w ws IH]; [constructor|].
  apply Forall_cons_iff in Hw as [[_ Hw] Hws]. simpl.
  apply Forall_app. split; [now apply capitalize_kept | now apply IH].
Qed.

Lemma general_rule_digits (name : str) :
  filter is_digit (general_rule name) = filter is_digit name.
Proof.
  unfold general_rule, join_empty. fold (unpunctuated name).
  rewrite capitalized_digits, (proj2 (split_words (unpunctuated name))).
  now rewrite digits_not_space, unpunctuated_digits.
Qed.
End IdentifierShape.

(** C7, as it holds of the scripts.  On a display name that is no key of
    the override table the identifier is the concatenation of one
    capitalized token per word
    of the name; it contains no white space, no apostrophe, no exclamation
    mark and no hyphen; a word that begins with an ASCII character yields a
    token that begins with its upper-case form; and the digits of the name
    are the digits of the identifier, word by word and in order.  Other
    punctuation is not part of what the rule removes. *)
Theorem canonical_identifier_shape (U : Unicode) (name : str) :
  ascii_compatible U ->
  ~ In name override_keys ->
  let words := split (unpunctuated name) in
  let out := to_camel_case name in
  out = concat (map capitalize words)
  /\ Forall (fun w => w <> [] /\ Forall (fun c => removed c = false) w) words
  /\ Forall (fun c => isspace c = false /\ c <> 39%N /\ c <> 33%N /\ c <> 45%N) out
  /\ (forall c r, In (c :: r) words -> (c < 128)%N ->
                  capitalize (c :: r) = ascii_toupper c :: do_lower [c] r)
  /\ Forall (fun w => filter is_digit (capitalize w) = filter is_digit w) words
  /\ filter is_digit out = filter is_digit name.
Proof.
  intros HU Hname words out. unfold out, words.
  rewrite to_camel_case_general by assumption.
  split; [reflexivity|].
  split; [now apply words_kept|].
  split.
  { pose proof (general_rule_kept HU name) as H.
    rewrite Forall_forall in H |- *. intros c Hc. specialize (H c Hc).
    unfold removed in H.
    repeat (apply orb_false_iff in H as [H ?]).
    repeat split; [assumption | | |]; now apply N.eqb_neq. }
  split.
  { intros c r _ Hc. simpl. now rewrite (title_ascii HU). }
  split; [apply Forall_forall; intros w _; now apply capitalize_digits|].
  now apply general_rule_digits.
Qed.

Lemma canonical_identifier_shape_witness :
  ~ In (py "Cloud 9") override_keys
  /\ filter is_digit (@to_camel_case ascii_db (py "Cloud 9")) = py "9".
Proof.
  assert (H : ~ In (py "Cloud 9") override_keys).
  { apply mem_not_In. vm_compute. reflexivity. }
  split; [exact H|].
  exact (proj2 (proj2 (proj2 (proj2 (proj2
    (@canonical_identifier_shape ascii_db (py "Cloud 9") ascii_db_compatible H)))))).
Defined.

(** ** C9: a source without the registration macro *)

Lemma macro_match_absent (content : str) :
  contains (py "make_jokers!(") content = false -> macro_match content = None.
Proof.
  unfold contains, macro_match.
  now destruct (find_after (py "make_jokers!(") content).
Qed.

Section NoMacro.
Import FindMissing.
Context {U : Unicode}.

Lemma dict_set_nonempty (V : Type) (k : str) (v : V) (d : dict V) : dict_set k v d <> [].
Proof. destruct d as [|[k' v'] d]; simpl; [|destruct (str_eqb k k')]; discriminate. Qed.

Lemma loop_body_nonempty (jd : dict detail) (il : nat * str) :
  jd <> [] \/ row_match (snd il) <> None -> loop_body jd il <> [].
Proof.
  unfold loop_body. destruct il as [i l]. simpl.
  destruct (row_match l) as [[[[[num name] cost] effect] unlock]|].
  - intros _. apply dict_set_nonempty.
  - intros [H|H]; congruence.
Qed.

Lemma fold_loop_nonempty (l : list (nat * str)) (jd : dict detail) :
  jd <> [] \/ (exists il, In il l /\ row_match (snd il) <> None) ->
  fold_left loop_body l jd <> [].
Proof.
  revert jd; induction l as [|il l IH]; intros jd H; simpl.
  - destruct H as [H|(il & [] & _)]. exact H.
  - apply IH. destruct H as [H|(il' & [<-|Hin] & Hrow)].
    + left. apply loop_body_nonempty. now left.
    + left. apply loop_body_nonempty. now right.
    + right. now exists il'.
Qed.

Lemma enumerate_In (A : Type) (start : nat) (l : list A) (x : A) :
  In x l -> exists i, In (i, x) (enumerate start l).
Proof.
  unfold enumerate. revert start; induction l as [|y l IH]; intros start; simpl; [tauto|].
  intros [->|H].
  - exists start. now left.
  - destruct (IH (S start) H) as [i Hi]. exists i. now right.
Qed.

(** A document with a table row gives a dictionary with a key. *)
Lemma joker_details_nonempty (lines : list str) :
  (exists l, In l lines /\ row_match l <> None) -> joker_details lines <> [].
Proof.
  intros (l & Hin & Hrow). unfold joker_details.
  apply fold_loop_nonempty. right.
  destruct (enumerate_In 0 _ _ Hin) as [i Hi]. now exists (i, l).
Qed.

Lemma main_without_macro (content : str) (lines : list str) :
  macro_match content = None ->
  main content lines =
  match joker_details lines with
  | [] => ([py "Total in JOKERS.md: 0"], Raise (NameError "implemented"))
  | _ :: _ => ([], Raise (NameError "implemented_lower"))
  end.
Proof.
  intros H. unfold main, implemented. rewrite H. simpl option_map.
  destruct (joker_details lines) as [|[k v] jd]; reflexivity.
Qed.
End NoMacro.

Section NoMacroClaim.
Import FindMissing.

(** With no macro and no table row the script prints the document total
    before it fails. *)
Lemma no_macro_counterexample :
  macro_match (py "pub enum Jokers {}") = None
  /\ @main ascii_db (py "pub enum Jokers {}") []
     = ([py "Total in JOKERS.md: 0"], Raise (NameError "implemented")).
Proof. split; vm_compute; reflexivity. Qed.

(** C9, as it holds of the scripts.  When the source holds no
    registration macro the run ends in an error, the unbound name of the
    implemented identifiers, and
    never completes; it prints neither the implemented count nor the
    missing count; and when the document has at least one table row it
    fails before anything is printed. *)
Theorem no_macro_is_fatal (U : Unicode) (content : str) (lines : list str) :
  macro_match content = None ->
  (exists name, outcome (main content lines) = Raise (NameError name))
  /\ (forall l, In l (stdout (main content lines)) ->
        strip_prefix (py "Total implemented: ") l = None
        /\ strip_prefix (py "Missing: ") l = None)
  /\ ((exists l, In l lines /\ row_match l <> None) ->
        stdout (main content lines) = []
        /\ outcome (main content lines) = Raise (NameError "implemented_lower")).
Proof.
  intros H. rewrite (@main_without_macro U content lines H).
  split; [|split].
  - destruct (joker_details lines); eexists; reflexivity.
  - intros l Hl. destruct (joker_details lines); simpl in Hl; [|contradiction].
    destruct Hl as [<-|[]]. split; vm_compute; reflexivity.
  - intros Hrow. apply joker_details_nonempty in Hrow.
    destruct (joker_details lines); [congruence | split; reflexivity].
Qed.

Lemma no_macro_is_fatal_witness :
  let content := py "pub enum Jokers {}" in
  let lines := [py "| 1 | Joker | $2 | +4 Mult | Start |"] in
  macro_match content = None
  /\ stdout (@main ascii_db content lines) = [].
Proof.
  intros content lines.
  assert (H : macro_match content = None) by (vm_compute; reflexivity).
  split; [exact H|].
  refine (proj1 (proj2 (proj2 (@no_macro_is_fatal ascii_db content lines H)) _)).
  exists (py "| 1 | Joker | $2 | +4 Mult | Start |").
  split; [left; reflexivity | vm_compute; discriminate].
Defined.
End NoMacroClaim.

(** ** A run of [find_missing.py] *)

Example find_missing_run :
  @FindMissing.main ascii_db
    (py "make_jokers!(TheJoker, MrBones, EightBall);")
    [ py "# Common Jokers";
      py "| # | Name | Cost | Effect | Unlock |";
      py "| 1 | Joker | $2 | +4 Mult | Start |";
      py "| 2 | Mr. Bones | $5 | Prevents death | Lose 5 runs |";
      py "| 3 | 8 Ball | $5 | Tarot on 8s | Start |";
      py "| 4 | Cloud 9 | $7 | $1 per 9 | Start |" ]
  = ([ py "Total in JOKERS.md: 4";
       py "Total implemented: 3";
       py "Missing: 2";
       [];
       py "Missing jokers with details:";
       repeat 61%N 80;
       py "Name: Cloud 9 (CamelCase: Cloud9)";
       py "  Cost: $7";
       py "  Effect: $1 per 9";
       py "  Unlock: Start";
       [];
       py "Name: Mr. Bones (CamelCase: Mr.Bones)";
       py "  Cost: $5";
       py "  Effect: Prevents death";
       py "  Unlock: Lose 5 runs";
       [] ],
     Ok tt).
Proof. vm_compute. reflexivity. Qed.

(** * Further properties of the scripts *)

(** ** Literal search *)

Lemma strip_prefix_Some (p s r : str) : strip_prefix p s = Some r <-> s = p ++ r.
Proof.
  revert s; induction p as [|x p IH]; intros s; simpl.
  - split; congruence.
  - destruct s as [|y s]; [split; discriminate|].
    destruct (N.eqb x y) eqn:E.
    + apply N.eqb_eq in E. subst y. rewrite IH. split; congruence.
    + apply N.eqb_neq in E. split; [discriminate | congruence].
Qed.

Lemma strip_prefix_app (p r : str) : strip_prefix p (p ++ r) = Some r.
Proof. now apply strip_prefix_Some. Qed.

(** Two ways to cut one text: the shorter first part is a prefix of the
    longer. *)
Lemma app_eq_app_le (A : Type) (a b c d : list A) :
  a ++ b = c ++ d -> length a <= length c -> exists x, c = a ++ x /\ b = x ++ d.
Proof.
  revert c; induction a as [|h a IH]; intros c E Hlen; simpl in *.
  - exists c. now split.
  - destruct c as [|h' c]; simpl in *; [lia|].
    injection E as -> E. destruct (IH c E) as (x & -> & ->); [lia|].
    now exists x.
Qed.

Lemma find_after_Some (pat s r : str) :
  find_after pat s = Some r ->
  exists pre, s = pre ++ pat ++ r
              /\ forall pre' r', s = pre' ++ pat ++ r' -> length pre <= length pre'.
Proof.
  revert r; induction s as [|c s IH]; intros r; simpl.
  - destruct (strip_prefix pat []) as [r0|] eqn:E; [|discriminate].
    intros H. injection H as <-. apply strip_prefix_Some in E.
    exists []. split; [exact E | intros; simpl; lia].
  - destruct (strip_prefix pat (c :: s)) as [r0|] eqn:E.
    + intros H. injection H as <-. apply strip_prefix_Some in E.
      exists []. split; [exact E | intros; simpl; lia].
    + intros H. destruct (IH r H) as (pre & -> & Hmin).
      exists (c :: pre). split; [reflexivity|].
      intros pre' r' E'. destruct pre' as [|c' pre'].
      * simpl in E'. rewrite E', strip_prefix_app in E. discriminate.
      * simpl in E'. injection E' as _ E'. simpl. apply le_n_S. eapply Hmin. exact E'.
Qed.

Lemma find_after_None (pat s : str) :
  find_after pat s = None <-> forall pre r, s <> pre ++ pat ++ r.
Proof.
  split.
  - induction s as [|c s IH]; simpl.
    + destruct (strip_prefix pat []) eqn:E; [discriminate|].
      intros _ pre r H. destruct pre; simpl in H.
      * rewrite H, strip_prefix_app in E. discriminate.
      * discriminate.
    + destruct (strip_prefix pat (c :: s)) eqn:E; [discriminate|].
      intros Hs pre r H. destruct pre as [|c' pre]; simpl in H.
      * rewrite H, strip_prefix_app in E. discriminate.
      * injection H as _ H. exact (IH Hs pre r H).
  - intros H. destruct (find_after pat s) as [r|] eqn:E; [|reflexivity].
    apply find_after_Some in E as (pre & E & _). now apply H in E.
Qed.

Lemma find_before_Some (pat s g : str) :
  find_before pat s = Some g ->
  exists post, s = g ++ pat ++ post
               /\ forall g' post', s = g' ++ pat ++ post' -> length g <= length g'.
Proof.
  revert g; induction s as [|c s IH]; intros g; simpl.
  - destruct (strip_prefix pat []) as [r0|] eqn:E; [|discriminate].
    intros H. injection H as <-. apply strip_prefix_Some in E.
    exists r0. split; [exact E | intros; simpl; lia].
  - destruct (strip_prefix pat (c :: s)) as [r0|] eqn:E.
    + intros H. injection H as <-. apply strip_prefix_Some in E.
      exists r0. split; [exact E | intros; simpl; lia].
    + destruct (find_before pat s) as [g0|] eqn:E0; [|discriminate].
      intros H. injection H as <-.
      destruct (IH g0 eq_refl) as (post & -> & Hmin).
      exists post. split; [reflexivity|].
      intros g' post' E'. destruct g' as [|c' g'].
      * simpl in E'. rewrite E', strip_prefix_app in E. discriminate.
      * simpl in E'. injection E' as _ E'. simpl. apply le_n_S. eapply Hmin. exact E'.
Qed.

Lemma find_before_None (pat s : str) :
  find_before pat s = None <-> find_after pat s = None.
Proof.
  induction s as [|c s IH]; simpl.
  - destruct (strip_prefix pat []); split; congruence.
  - destruct (strip_prefix pat (c :: s)); [split; discriminate|].
    rewrite <- IH. destruct (find_before pat s); simpl; split; intros H; try discriminate H; reflexivity.
Qed.

(** ** The registration macro *)

(** X1.  When the pattern of line 7 matches, the source is some text, the
    opening [make_jokers!(], the captured group, the closing [);] and the
    rest; the opening is the leftmost one in the source and the closing is
    the first one after it, so the group itself holds no [);]. *)
Theorem macro_match_sound (content g : str) :
  macro_match content = Some g ->
  exists pre post,
    content = pre ++ py "make_jokers!(" ++ g ++ py ");" ++ post
    /\ (forall pre' r', content = pre' ++ py "make_jokers!(" ++ r' ->
                        length pre <= length pre')
    /\ (forall g' post', g ++ py ");" ++ post = g' ++ py ");" ++ post' ->
                         length g <= length g')
    /\ contains (py ");") g = false.
Proof.
  unfold macro_match. intros H.
  destruct (find_after (py "make_jokers!(") content) as [r|] eqn:Ea; [|discriminate].
  apply find_after_Some in Ea as (pre & -> & Hpre).
  apply find_before_Some in H as (post & -> & Hg).
  exists pre, post. repeat split; try assumption.
  unfold contains. destruct (find_after (py ");") g) as [r|] eqn:E; [|reflexivity].
  apply find_after_Some in E as (g' & E & _).
  assert (Hlen : length g <= length g').
  { apply (Hg g' (r ++ py ");" ++ post)). rewrite E. now rewrite <- !app_assoc. }
  rewrite E in Hlen. rewrite !length_app in Hlen. simpl in Hlen. lia.
Qed.

Lemma macro_match_sound_witness :
  exists pre post,
    py "x make_jokers!(A, B); y" = pre ++ py "make_jokers!(" ++ py "A, B" ++ py ");" ++ post.
Proof.
  assert (H : macro_match (py "x make_jokers!(A, B); y") = Some (py "A, B"))
    by (vm_compute; reflexivity).
  destruct (macro_match_sound _ H) as (pre & post & E & _).
  exists pre, post. exact E.
Defined.

Lemma delimited_none (op cl content : str) :
  match find_after op content with
  | Some r => find_before cl r
  | None => None
  end = None
  <-> forall pre g post, content <> pre ++ op ++ g ++ cl ++ post.
Proof.
  split.
  - intros H pre g post E.
    destruct (find_after op content) as [r|] eqn:Ea.
    + apply find_before_None in H.
      pose proof Ea as Ea'. apply find_after_Some in Ea' as (pre0 & E0 & Hmin).
      specialize (Hmin pre _ E).
      rewrite E0 in E.
      destruct (app_eq_app_le _ _ _ _ E Hmin) as (x & -> & Ex).
      assert (Hl : length op <= length (x ++ op)) by (rewrite length_app; lia).
      rewrite app_assoc in Ex.
      destruct (app_eq_app_le _ _ _ _ Ex Hl) as (y & _ & ->).
      apply (proj1 (find_after_None _ _) H (y ++ g) post). now rewrite <- app_assoc.
    + apply (proj1 (find_after_None _ _) Ea pre (g ++ cl ++ post)). exact E.
  - intros H.
    destruct (find_after op content) as [r|] eqn:Ea; [|reflexivity].
    destruct (find_before cl r) as [g|] eqn:Eb; [|reflexivity].
    apply find_after_Some in Ea as (pre & -> & _).
    apply find_before_Some in Eb as (post & -> & _).
    exfalso. now apply (H pre g post).
Qed.

(** X2.  The pattern of line 7 finds nothing exactly when the source
    cannot be cut into some text, [make_jokers!(], some text, [);] and the
    rest: an opening without a later closing is no match. *)
Theorem macro_match_none (content : str) :
  macro_match content = None
  <-> forall pre g post, content <> pre ++ py "make_jokers!(" ++ g ++ py ");" ++ post.
Proof. apply delimited_none. Qed.

(** ** The identifier scanner *)

Lemma findall_ident_nil (s : str) (cur : option str) :
  findall_ident cur s = []
  <-> cur = None /\ forallb (fun c => negb (is_upper c)) s = true.
Proof.
  revert cur; induction s as [|c s IH]; intros [t|]; simpl.
  - split; [discriminate | intros [H _]; discriminate].
  - tauto.
  - destruct (is_alnum c).
    + rewrite IH. split; intros [H _]; discriminate.
    + split; [discriminate | intros [H _]; discriminate].
  - destruct (is_upper c); simpl.
    + rewrite IH. split; [intros [H _]; discriminate | intros [_ H]; discriminate].
    + rewrite IH. tauto.
Qed.

(** X3.  No identifier is extracted exactly when the text between the
    brackets of the macro holds no upper-case ASCII letter. *)
Theorem no_identifier_extracted (macro_content : str) :
  findall_ident None macro_content = []
  <-> forallb (fun c => negb (is_upper c)) macro_content = true.
Proof. rewrite findall_ident_nil. tauto. Qed.

Lemma findall_skip (sep rest : str) :
  no_alnum sep = true -> findall_ident None (sep ++ rest) = findall_ident None rest.
Proof.
  unfold no_alnum. induction sep as [|c sep IH]; simpl; [reflexivity|].
  intros H. apply andb_true_iff in H as [Hc Hs].
  destruct (is_upper c) eqn:E; [|now apply IH].
  rewrite (is_upper_alnum _ E) in Hc. discriminate.
Qed.

Lemma findall_run (w rest t : str) :
  forallb is_alnum w = true ->
  findall_ident (Some t) (w ++ rest) = findall_ident (Some (rev w ++ t)) rest.
Proof.
  revert t; induction w as [|c w IH]; intros t; simpl; [reflexivity|].
  intros H. apply andb_true_iff in H as [Hc Hw]. rewrite Hc, IH by assumption.
  now rewrite <- app_assoc.
Qed.

(** The scanner reads one identifier that ends the text or is followed by
    a character that is neither a letter nor a digit. *)
Lemma findall_one (j rest : str) :
  ident_shape j = true ->
  match rest with [] => True | c :: _ => is_alnum c = false end ->
  findall_ident None (j ++ rest) = j :: findall_ident None rest.
Proof.
  destruct j as [|c w]; simpl; [discriminate|].
  intros H Hrest. apply andb_true_iff in H as [Hc Hw].
  rewrite Hc, findall_run by assumption.
  assert (E : rev (rev w ++ [c]) = c :: w) by (now rewrite rev_app_distr, rev_involutive).
  destruct rest as [|x rest]; simpl.
  - now rewrite E.
  - rewrite Hrest, E. f_equal. simpl.
    destruct (is_upper x) eqn:Ex; [|reflexivity].
    rewrite (is_upper_alnum _ Ex) in Hrest. discriminate.
Qed.

Lemma findall_listed (items : list (str * str)) (tail : str) :
  Forall (fun it => no_alnum (fst it) = true /\ ident_shape (snd it) = true) items ->
  Forall (fun it => fst it <> []) (tl items) ->
  no_alnum tail = true ->
  findall_ident None (listed items tail) = map snd items.
Proof.
  unfold listed. intros Hit Hsep Htail.
  induction items as [|[sep j] items IH]; simpl.
  - rewrite <- (app_nil_r tail), findall_skip by assumption. reflexivity.
  - apply Forall_cons_iff in Hit as [[Hs Hj] Hit]. simpl in Hs, Hj, Hsep.
    rewrite <- !app_assoc, findall_skip by assumption.
    rewrite findall_one; [f_equal; apply IH; try assumption| assumption |].
    + destruct items; simpl in *; [constructor|].
      apply Forall_cons_iff in Hsep as [_ Hsep]. exact Hsep.
    + destruct items as [|[sep' j'] items]; simpl.
      * unfold no_alnum in Htail. destruct tail as [|c tail]; [exact I|].
        simpl in Htail. apply andb_true_iff in Htail as [Hc _].
        now apply negb_true_iff in Hc.
      * apply Forall_cons_iff in Hsep as [Hne _]. simpl in Hne.
        apply Forall_cons_iff in Hit as [[Hs' _] _]. simpl in Hs'.
        destruct sep' as [|c sep']; [congruence|]. simpl.
        unfold no_alnum in Hs'. simpl in Hs'. apply andb_true_iff in Hs' as [Hc _].
        now apply negb_true_iff in Hc.
Qed.

(** Of the stop list only [Missing] can be a token. *)
Lemma stop_list_effective (j : str) :
  ident_shape j = true -> mem j stop_list = str_eqb j (py "Missing").
Proof.
  intros H. unfold mem, stop_list. cbn [existsb].
  repeat match goal with
  | |- context [str_eqb j (py ?w)] =>
      lazymatch w with
      | "Missing"%string => fail
      | _ => let E := fresh "E" in
             destruct (str_eqb j (py w)) eqn:E;
             [apply str_eqb_eq in E; rewrite E in H; vm_compute in H; discriminate|]
      end
  end.
  now rewrite !orb_false_r.
Qed.

(** X4.  From a list of identifiers, each an upper-case ASCII letter
    followed by ASCII letters and digits, separated by non-empty runs of
    characters that are neither letters nor digits, the scripts extract
    exactly the identifiers of the list other than [Missing], in order. *)
Theorem implemented_of_listed (items : list (str * str)) (tail : str) :
  Forall (fun it => no_alnum (fst it) = true /\ ident_shape (snd it) = true) items ->
  Forall (fun it => fst it <> []) (tl items) ->
  no_alnum tail = true ->
  implemented_of (listed items tail)
  = filter (fun j => negb (str_eqb j (py "Missing"))) (map snd items).
Proof.
  intros Hit Hsep Htail. unfold implemented_of.
  rewrite findall_listed by assumption.
  clear Hsep. induction items as [|[sep j] items IH]; [reflexivity|].
  apply Forall_cons_iff in Hit as [[_ Hj] Hit]. cbn [snd] in Hj.
  cbn [map filter snd]. rewrite (stop_list_effective _ Hj), (IH Hit). reflexivity.
Qed.

Lemma implemented_of_listed_witness :
  implemented_of (py " TheJoker, Missing,
    Cloud9 ")
  = [py "TheJoker"; py "Cloud9"].
Proof.
  refine (@implemented_of_listed
            [(py " ", py "TheJoker"); (py ", ", py "Missing");
             ([44; 10; 32; 32; 32; 32]%N, py "Cloud9")] (py " ") _ _ _).
  - repeat constructor.
  - repeat constructor; discriminate.
  - reflexivity.
Defined.

(** ** The row pattern *)

Lemma take_drop_while (p : N -> bool) (s : str) : take_while p s ++ drop_while p s = s.
Proof. induction s as [|c s IH]; simpl; [reflexivity|]. destruct (p c); simpl; congruence. Qed.

Lemma take_while_all (p : N -> bool) (s : str) : forallb p (take_while p s) = true.
Proof. induction s as [|c s IH]; simpl; [reflexivity|]. destruct (p c) eqn:E; simpl; [now rewrite E|reflexivity]. Qed.

Lemma drop_while_head (p : N -> bool) (s : str) (c : N) (r : str) :
  drop_while p s = c :: r -> p c = false.
Proof.
  induction s as [|x s IH]; simpl; [discriminate|].
  destruct (p x) eqn:E; [exact IH|]. intros H. injection H as <- _. exact E.
Qed.

Lemma drop_while_nil (p : N -> bool) (s : str) : drop_while p s = [] -> forallb p s = true.
Proof.
  induction s as [|x s IH]; simpl; [reflexivity|].
  destruct (p x); [exact IH | discriminate].
Qed.

Lemma take_while_app (p : N -> bool) (a b : str) :
  forallb p a = true -> match b with [] => True | c :: _ => p c = false end ->
  take_while p (a ++ b) = a /\ drop_while p (a ++ b) = b.
Proof.
  intros Ha Hb. induction a as [|x a IH]; simpl.
  - destruct b as [|c b]; simpl; [now split|]. now rewrite Hb.
  - simpl in Ha. apply andb_true_iff in Ha as [Hx Ha]. rewrite Hx.
    destruct (IH Ha) as [-> ->]. now split.
Qed.

Section RowPattern.
Context {U : Unicode}.

Lemma expect_Some (c : N) (s r : str) : expect c s = Some r <-> s = c :: r.
Proof.
  unfold expect. destruct s as [|x s]; [split; discriminate|].
  destruct (N.eqb x c) eqn:E.
  - apply N.eqb_eq in E. subst x. split; intros H; injection H as ->; reflexivity.
  - apply N.eqb_neq in E. split; [discriminate | intros H; injection H as H _; contradiction].
Qed.

Lemma re_digits_Some (s d r : str) :
  re_digits s = Some (d, r) ->
  decimal d = true /\ exists w, blank w = true /\ s = d ++ w ++ 124%N :: r.
Proof.
  unfold re_digits.
  pose proof (take_drop_while isdecimal s) as Hs.
  pose proof (take_while_all isdecimal s) as Hd.
  destruct (take_while isdecimal s) as [|x d0] eqn:Et; [discriminate|].
  destruct (expect 124 (drop_while isspace (drop_while isdecimal s))) as [r0|] eqn:Ee;
    [|discriminate].
  intros H. injection H as <- <-.
  apply expect_Some in Ee.
  split; [exact Hd|].
  exists (take_while isspace (drop_while isdecimal s)).
  split; [apply take_while_all|].
  rewrite <- Ee, take_drop_while. now symmetry.
Qed.

Lemma re_text_Some (s g r : str) :
  re_text s = Some (g, r) ->
  g <> [] /\ exists a b, blank a = true /\ blank b = true
                         /\ ~ In 124%N (a ++ g ++ b) /\ s = a ++ g ++ b ++ 124%N :: r.
Proof.
  unfold re_text.
  set (not_bar := fun c => negb (N.eqb c 124)).
  pose proof (take_drop_while not_bar s) as Hs.
  pose proof (take_while_all not_bar s) as Hcol.
  destruct (drop_while not_bar s) as [|x r0] eqn:Ed; [discriminate|].
  assert (Hx : x = 124%N).
  { apply drop_while_head in Ed. unfold not_bar in Ed.
    apply negb_false_iff, N.eqb_eq in Ed. exact Ed. }
  subst x.
  assert (Hbar : forall l, forallb not_bar l = true -> ~ In 124%N l).
  { intros l Hl Hin. rewrite forallb_forall in Hl. specialize (Hl _ Hin).
    unfold not_bar in Hl. rewrite N.eqb_refl in Hl. discriminate. }
  set (col := take_while not_bar s) in *.
  pose proof (take_drop_while isspace col) as Hc.
  destruct (drop_while isspace col) as [|y g0] eqn:Eg.
  - (* a column of white space *)
    pose proof (drop_while_nil _ _ Eg) as Hall.
    destruct (rev col) as [|c t] eqn:Er; [discriminate|].
    intros H. injection H as <- <-.
    assert (Ecol : col = rev t ++ [c]).
    { rewrite <- (rev_involutive col), Er. reflexivity. }
    split; [discriminate|].
    exists (rev t), []. rewrite Ecol in Hall, Hcol.
    unfold blank. rewrite forallb_app in Hall. apply andb_true_iff in Hall as [Ha _].
    repeat split; [exact Ha | | ].
    + rewrite app_nil_r. now apply Hbar.
    + rewrite <- Hs, Ecol. now rewrite <- !app_assoc.
  - intros H. injection H as <- <-.
    change (rev g0 ++ [y]) with (rev (y :: g0)).
    pose proof (drop_while_head _ _ Eg) as Hy.
    pose proof (take_drop_while isspace (rev (y :: g0))) as Hr.
    set (g := rev (drop_while isspace (rev (y :: g0)))).
    set (b := rev (take_while isspace (rev (y :: g0)))).
    assert (Eyg : y :: g0 = g ++ b).
    { unfold g, b. rewrite <- rev_app_distr, Hr. now rewrite rev_involutive. }
    assert (Hb : blank b = true).
    { unfold b, blank. rewrite forallb_forall. intros c Hin. apply in_rev in Hin.
      pose proof (take_while_all isspace (rev (y :: g0))) as Ht.
      rewrite forallb_forall in Ht. now apply Ht. }
    assert (Hg : g <> []).
    { intros E. rewrite E in Eyg. simpl in Eyg.
      unfold blank in Hb. rewrite <- Eyg in Hb. simpl in Hb. rewrite Hy in Hb. discriminate. }
    split; [exact Hg|].
    exists (take_while isspace col), b.
    repeat split; [apply take_while_all | exact Hb | |].
    + rewrite <- Eyg, Hc. now apply Hbar.
    + rewrite <- Hs. rewrite <- Hc at 1. rewrite Eyg. now rewrite <- !app_assoc.
Qed.

(** A matched line is a row, column by column. *)
Lemma row_match_columns (line num name cost effect unlock : str) :
  row_match line = Some (num, name, cost, effect, unlock) ->
  exists r : row_text,
    line = row_line r /\ row_pads_blank r = true
    /\ col_num r = num /\ col_name r = name /\ col_cost r = cost
    /\ col_effect r = effect /\ col_unlock r = unlock
    /\ decimal num = true /\ decimal cost = true
    /\ name <> [] /\ effect <> [] /\ unlock <> []
    /\ ~ In 124%N name /\ ~ In 124%N effect /\ ~ In 124%N unlock.
Proof.
  unfold row_match.
  destruct (expect 124 line) as [s0|] eqn:E0; [|discriminate].
  apply expect_Some in E0.
  pose proof (take_drop_while isspace s0) as Hw1.
  destruct (re_digits (drop_while isspace s0)) as [[num' s1]|] eqn:E1; [|discriminate].
  apply re_digits_Some in E1 as (Hnum & w2 & Hw2 & E1).
  destruct (re_text s1) as [[name' s2]|] eqn:E2; [|discriminate].
  apply re_text_Some in E2 as (Hname & a2 & b2 & Ha2 & Hb2 & Hn2 & E2).
  pose proof (take_drop_while isspace s2) as Hw3.
  destruct (expect 36 (drop_while isspace s2)) as [s3|] eqn:E3; [|discriminate].
  apply expect_Some in E3.
  destruct (re_digits s3) as [[cost' s4]|] eqn:E4; [|discriminate].
  apply re_digits_Some in E4 as (Hcost & w4 & Hw4 & E4).
  destruct (re_text s4) as [[effect' s5]|] eqn:E5; [|discriminate].
  apply re_text_Some in E5 as (Heffect & a4 & b4 & Ha4 & Hb4 & Hn4 & E5).
  destruct (re_text s5) as [[unlock' s6]|] eqn:E6; [|discriminate].
  apply re_text_Some in E6 as (Hunlock & a5 & b5 & Ha5 & Hb5 & Hn5 & E6).
  intros H. injection H as <- <- <- <- <-.
  exists {| pad_num := (take_while isspace s0, w2); col_num := num';
            pad_name := (a2, b2); col_name := name';
            pad_cost := (take_while isspace s2, w4); col_cost := cost';
            pad_effect := (a4, b4); col_effect := effect';
            pad_unlock := (a5, b5); col_unlock := unlock';
            after_row := s6 |}.
  assert (Hin : forall a g b, ~ In 124%N (a ++ g ++ b) -> ~ In 124%N g).
  { intros a g b Hn Hg. apply Hn. apply in_or_app. right. apply in_or_app. now left. }
  repeat split; eauto.
  - unfold row_line. cbn [pad_num pad_name pad_cost pad_effect pad_unlock
                          col_num col_name col_cost col_effect col_unlock after_row fst snd].
    rewrite <- E6, <- E5, <- E4, <- E3, Hw3, <- E2, <- E1, Hw1. exact E0.
  - unfold row_pads_blank, blank_pad. cbn.
    unfold blank in *. rewrite !take_while_all, Hw2, Ha2, Hb2, Hw4, Ha4, Hb4, Ha5, Hb5.
    reflexivity.
Qed.
End RowPattern.

(** X5.  A line that the row pattern matches is a row of the table: a bar,
    the number, a bar, the name, a bar, a dollar sign and the cost, a bar,
    the effect, a bar, the unlock text and a bar, with nothing but white
    space around each column (none between the dollar sign and the cost).
    The number and the cost are non-empty runs of decimal digits; the three
    texts are non-empty and hold no bar. *)
Theorem row_match_sound (U : Unicode) (line num name cost effect unlock : str) :
  row_match line = Some (num, name, cost, effect, unlock) ->
  exists r : row_text,
    line = row_line r /\ row_pads_blank r = true
    /\ col_num r = num /\ col_name r = name /\ col_cost r = cost
    /\ col_effect r = effect /\ col_unlock r = unlock
    /\ decimal num = true /\ decimal cost = true
    /\ name <> [] /\ effect <> [] /\ unlock <> []
    /\ ~ In 124%N name /\ ~ In 124%N effect /\ ~ In 124%N unlock.
Proof. apply row_match_columns. Qed.

Lemma row_match_sound_witness :
  exists r : row_text,
    py "| 7 | Cloud 9 | $7 | $1 per 9 | Start |" = row_line r
    /\ col_name r = py "Cloud 9".
Proof.
  assert (H : @row_match ascii_db (py "| 7 | Cloud 9 | $7 | $1 per 9 | Start |")
              = Some (py "7", py "Cloud 9", py "7", py "$1 per 9", py "Start"))
    by (vm_compute; reflexivity).
  destruct (@row_match_sound ascii_db _ _ _ _ _ _ H) as (r & E & _ & _ & En & _).
  exists r. split; assumption.
Defined.

Lemma row_line_bars (r : row_text) : 6 <= count_occ N.eq_dec (row_line r) 124%N.
Proof.
  unfold row_line.
  repeat first [ rewrite count_occ_app
               | rewrite count_occ_cons_eq by reflexivity
               | rewrite count_occ_cons_neq by discriminate ].
  lia.
Qed.

(** X6.  A line with fewer than six bars is no row: the pattern does not
    match it and the scripts pass over it. *)
Theorem short_line_skipped (U : Unicode) (line : str) :
  count_occ N.eq_dec line 124%N < 6 -> row_match line = None.
Proof.
  intros H. destruct (row_match line) as [[[[[num name] cost] effect] unlock]|] eqn:E;
    [|reflexivity].
  apply row_match_columns in E as (r & -> & _).
  pose proof (row_line_bars r). lia.
Qed.

Lemma short_line_skipped_witness :
  @row_match ascii_db (py "| 7 | Cloud 9 | $7 | $1 per 9 | Start") = None.
Proof.
  apply short_line_skipped. vm_compute. lia.
Defined.

Section RowComplete.
Context {U : Unicode}.
Hypothesis HU : row_classes U.

Lemma blank_not_decimal (w rest : str) :
  blank w = true ->
  match w ++ 124%N :: rest with [] => True | c :: _ => isdecimal c = false end.
Proof.
  destruct w as [|c w]; simpl.
  - intros _. exact (proj2 (bar_plain HU)).
  - intros H. apply andb_true_iff in H as [Hc _].
    destruct (isdecimal c) eqn:E; [|reflexivity].
    rewrite (decimal_not_space HU _ E) in Hc. discriminate.
Qed.

Lemma drop_blank (w x : str) :
  blank w = true -> match x with [] => True | c :: _ => isspace c = false end ->
  drop_while isspace (w ++ x) = x.
Proof. intros Hw Hx. now apply take_while_app. Qed.

Lemma drop_blank_bar (w rest : str) :
  blank w = true -> drop_while isspace (w ++ 124%N :: rest) = 124%N :: rest.
Proof.
  intros H. apply take_while_app; [exact H | exact (proj1 (bar_plain HU))].
Qed.

Lemma re_digits_complete (d w rest : str) :
  decimal d = true -> blank w = true ->
  re_digits (d ++ w ++ 124%N :: rest) = Some (d, rest).
Proof.
  intros Hd Hw. unfold re_digits.
  destruct d as [|c d]; [discriminate|]. unfold decimal in Hd.
  destruct (take_while_app isdecimal (c :: d) (w ++ 124%N :: rest) Hd
              (blank_not_decimal w rest Hw)) as [-> ->].
  rewrite drop_blank_bar by assumption. simpl. reflexivity.
Qed.

Lemma last_cons (l : str) (x c : N) : last (x :: l) c = last l x.
Proof.
  revert x c; induction l as [|y l IH]; intros x c; [reflexivity|].
  change (last (x :: y :: l) c) with (last (y :: l) c). now rewrite !IH.
Qed.

Lemma rev_head_last (l : str) (c : N) : exists t, rev (c :: l) = last l c :: t.
Proof.
  revert c; induction l as [|x l IH]; intros c.
  - exists []. reflexivity.
  - destruct (IH x) as [t Ht]. exists (t ++ [c]).
    change (rev (c :: x :: l)) with (rev (x :: l) ++ [c]).
    now rewrite Ht, last_cons.
Qed.

Lemma blank_no_bar (w : str) :
  blank w = true -> forallb (fun x => negb (N.eqb x 124)) w = true.
Proof.
  unfold blank. rewrite !forallb_forall. intros H x Hx. specialize (H x Hx).
  destruct (N.eqb x 124) eqn:E; [|reflexivity].
  apply N.eqb_eq in E. subst. rewrite (proj1 (bar_plain HU)) in H. discriminate.
Qed.

Lemma re_text_complete (a g b rest : str) :
  blank a = true -> blank b = true -> tight g = true ->
  re_text (a ++ g ++ b ++ 124%N :: rest) = Some (g, rest).
Proof.
  intros Ha Hb Hg. unfold re_text.
  destruct g as [|c g]; [discriminate|]. unfold tight in Hg.
  apply andb_true_iff in Hg as [Hg Hbar].
  apply andb_true_iff in Hg as [Hc Hl].
  apply negb_true_iff in Hc, Hl.
  assert (Hcol : forallb (fun x => negb (N.eqb x 124)) (a ++ (c :: g) ++ b) = true).
  { rewrite !forallb_app, Hbar, !blank_no_bar by assumption. reflexivity. }
  destruct (take_while_app (fun x => negb (N.eqb x 124)) (a ++ (c :: g) ++ b)
              (124%N :: rest) Hcol eq_refl) as [Et Ed].
  rewrite <- !app_assoc in Et, Ed. rewrite Et, Ed.
  destruct (take_while_app isspace a ((c :: g) ++ b) Ha Hc) as [_ Eg].
  rewrite Eg. cbn [app].
  change (c :: g ++ b) with ((c :: g) ++ b). rewrite rev_app_distr.
  destruct (rev_head_last g c) as [t Ht].
  assert (Hb' : forallb isspace (rev b) = true).
  { unfold blank in Hb. rewrite forallb_forall in Hb |- *.
    intros x Hx. apply Hb. now apply in_rev. }
  assert (Hh : match rev (c :: g) with [] => True | x :: _ => isspace x = false end)
    by (rewrite Ht; exact Hl).
  destruct (take_while_app isspace (rev b) (rev (c :: g)) Hb' Hh) as [_ ->].
  now rewrite rev_involutive.
Qed.

Lemma row_match_complete (r : row_text) :
  row_pads_blank r = true ->
  decimal (col_num r) = true -> decimal (col_cost r) = true ->
  tight (col_name r) = true -> tight (col_effect r) = true -> tight (col_unlock r) = true ->
  row_match (row_line r)
  = Some (col_num r, col_name r, col_cost r, col_effect r, col_unlock r).
Proof.
  destruct r as [[w1 w2] num [a2 b2] name [w3 w4] cost [a4 b4] effect [a5 b5] unlock rest].
  unfold row_pads_blank, blank_pad, row_line. cbn [pad_num pad_name pad_cost pad_effect pad_unlock
    col_num col_name col_cost col_effect col_unlock after_row fst snd].
  intros Hp Hnum Hcost Hname Heffect Hunlock.
  repeat match goal with
  | H : _ && _ = true |- _ => apply andb_true_iff in H as [? ?]
  end.
  unfold row_match. cbn [expect]. rewrite N.eqb_refl.
  assert (Hn0 : match num ++ w2 ++ 124%N :: a2 ++ name ++ b2 ++ 124%N :: w3 ++ 36%N :: cost ++ w4
                      ++ 124%N :: a4 ++ effect ++ b4 ++ 124%N :: a5 ++ unlock ++ b5
                      ++ 124%N :: rest
                with [] => True | c :: _ => isspace c = false end).
  { destruct num as [|c num]; [discriminate|]. simpl.
    unfold decimal in Hnum. simpl in Hnum. apply andb_true_iff in Hnum as [Hc _].
    exact (decimal_not_space HU _ Hc). }
  rewrite drop_blank by assumption.
  rewrite re_digits_complete by assumption.
  rewrite re_text_complete by assumption.
  rewrite drop_blank by (assumption || exact (dollar_plain HU)).
  cbn [expect]. rewrite N.eqb_refl.
  rewrite re_digits_complete by assumption.
  rewrite !re_text_complete by assumption.
  reflexivity.
Qed.
End RowComplete.

Lemma ascii_db_row_classes : row_classes ascii_db.
Proof.
  constructor; simpl; [|split; reflexivity|reflexivity].
  intros c H. destruct (ascii_isspace c) eqn:E; [code_points; lia | reflexivity].
Qed.

(** X7.  Every line of the documented form is recognised: a bar, the
    digits of the number, a bar, the name, a bar, a dollar sign and the
    digits of the cost, a bar, the effect, a bar, the unlock text, a bar,
    with any white space around the columns, yields exactly these five
    columns, provided the three texts are not empty, hold no bar and have
    no white space at either end.  What follows the last bar is ignored. *)
Theorem row_match_recognises (U : Unicode) (r : row_text) :
  row_classes U ->
  row_pads_blank r = true ->
  decimal (col_num r) = true -> decimal (col_cost r) = true ->
  tight (col_name r) = true -> tight (col_effect r) = true -> tight (col_unlock r) = true ->
  row_match (row_line r)
  = Some (col_num r, col_name r, col_cost r, col_effect r, col_unlock r).
Proof. intros HU. now apply row_match_complete. Qed.

Lemma row_match_recognises_witness :
  @row_match ascii_db (py "|12|  Mr. Bones |$5| Prevents death  | Lose 5 runs | trailing")
  = Some (py "12", py "Mr. Bones", py "5", py "Prevents death", py "Lose 5 runs").
Proof.
  exact (@row_match_recognises ascii_db
    {| pad_num := ([], []); col_num := py "12";
       pad_name := (py "  ", py " "); col_name := py "Mr. Bones";
       pad_cost := ([], []); col_cost := py "5";
       pad_effect := (py " ", py "  "); col_effect := py "Prevents death";
       pad_unlock := (py " ", py " "); col_unlock := py "Lose 5 runs";
       after_row := py " trailing" |}
    ascii_db_row_classes eq_refl eq_refl eq_refl eq_refl eq_refl eq_refl).
Defined.

(** ** The rows of the document *)

Section DocumentRows.
Import MissingJokersAnalysis.
Context {U : Unicode}.

Lemma read_line_entry (cs : section_name) (i : nat) (l : str) :
  read_line cs (i, l)
  = (next_section cs l, option_map (make_entry i (next_section cs l)) (row_match l)).
Proof.
  unfold read_line, make_entry.
  destruct (row_match l) as [[[[[num name] cost] effect] unlock]|]; reflexivity.
Qed.

Lemma entries_from_In (lines : list str) (k : nat) (cs : section_name)
      (e : str * detail) :
  In e (entries_from cs (enumerate k lines))
  <-> exists i l g,
        nth_error lines i = Some l /\ row_match l = Some g
        /\ e = make_entry (k + i) (fold_left next_section (firstn (S i) lines) cs) g.
Proof.
  revert k cs; induction lines as [|l0 lines IH]; intros k cs.
  - simpl. split; [tauto|]. intros (i & l & g & H & _). destruct i; discriminate.
  - change (enumerate k (l0 :: lines)) with ((k, l0) :: enumerate (S k) lines).
    cbn [entries_from]. rewrite read_line_entry.
    assert (Hrest : In e (entries_from (next_section cs l0) (enumerate (S k) lines))
                    <-> exists i l g,
                          nth_error (l0 :: lines) (S i) = Some l /\ row_match l = Some g
                          /\ e = make_entry (k + S i)
                                   (fold_left next_section (firstn (S (S i)) (l0 :: lines)) cs) g).
    { rewrite IH. split; intros (i & l & g & H1 & H2 & H3); exists i, l, g;
        (split; [exact H1|]; split; [exact H2|]);
        rewrite H3; cbn [firstn fold_left]; f_equal; lia. }
    destruct (row_match l0) as [g0|] eqn:E0; cbn [option_map].
    + split.
      * intros [<-|H].
        -- exists 0, l0, g0. repeat split; [assumption|].
           rewrite Nat.add_0_r. reflexivity.
        -- apply Hrest in H as (i & l & g & H). exists (S i), l, g. exact H.
      * intros (i & l & g & H1 & H2 & H3). destruct i as [|i].
        -- left. simpl in H1. injection H1 as <-. rewrite E0 in H2. injection H2 as <-.
           rewrite H3, Nat.add_0_r. reflexivity.
        -- right. apply Hrest. exists i, l, g. auto.
    + split.
      * intros H. apply Hrest in H as (i & l & g & H). exists (S i), l, g. exact H.
      * intros (i & l & g & H1 & H2 & H3). destruct i as [|i].
        -- simpl in H1. injection H1 as <-. congruence.
        -- apply Hrest. exists i, l, g. auto.
Qed.

Lemma entries_In (lines : list str) (e : str * detail) :
  In e (entries lines)
  <-> exists i l g,
        nth_error lines i = Some l /\ row_match l = Some g
        /\ e = make_entry (S i) (section_at lines (S i)) g.
Proof. unfold entries, section_at. apply entries_from_In. Qed.

Lemma entries_from_sorted (l : list (nat * str)) (cs : section_name) :
  StronglySorted lt (map fst l) ->
  StronglySorted lt (map (fun e => line (snd e)) (entries_from cs l)).
Proof.
  revert cs; induction l as [|[i x] l IH]; intros cs Hs; [constructor|].
  cbn [map fst] in Hs. inversion Hs as [|? ? Hs' Hall]; subst.
  cbn [entries_from].
  destruct (read_line cs (i, x)) as [cs' [e|]] eqn:E; [|now apply IH].
  cbn [map]. constructor; [now apply IH|].
  rewrite (read_line_line _ _ E). cbn [fst].
  rewrite Forall_forall in Hall |- *. intros n Hn.
  apply in_map_iff in Hn as (e' & <- & Hin).
  apply Hall. now apply entries_from_lines in Hin.
Qed.

Lemma seq_sorted (start len : nat) : StronglySorted lt (seq start len).
Proof.
  revert start; induction len as [|len IH]; intros start; simpl; constructor; [apply IH|].
  apply Forall_forall. intros n Hn. apply in_seq in Hn. lia.
Qed.
End DocumentRows.

Section DocumentRowsClaims.
Import MissingJokersAnalysis.

(** X8.  The entries [missing_jokers_analysis.py] extracts are exactly the
    lines of the document that the row pattern matches, no other and none
    left out: the entry of line [i] (counted from 1) has the stripped name,
    the number and the cost as captured, the stripped effect and unlock
    text, the line number [i], and the section in force after the first
    [i] lines.  The entries come in the order of their lines. *)
Theorem entries_are_matched_lines (U : Unicode) (lines : list str) :
  (forall e, In e (entries lines)
             <-> exists i l g,
                   nth_error lines i = Some l /\ row_match l = Some g
                   /\ e = make_entry (S i) (section_at lines (S i)) g)
  /\ StronglySorted lt (map (fun e => line (snd e)) (entries lines)).
Proof.
  split; [intros e; apply entries_In|].
  unfold entries. apply entries_from_sorted.
  rewrite enumerate_fst. apply seq_sorted.
Qed.

(** X9.  In a document without any section header every entry is filed
    under the section Unknown. *)
Theorem no_header_all_unknown (U : Unicode) (lines : list str) :
  forallb no_header lines = true ->
  Forall (fun e => section (snd e) = Unknown) (entries lines).
Proof.
  intros H. apply Forall_forall. intros e He.
  apply entries_In in He as (i & l & g & _ & _ & ->).
  destruct g as [[[[num name] cost] effect] unlock]. simpl.
  unfold section_at.
  assert (Hf : forallb no_header (firstn (S i) lines) = true).
  { rewrite forallb_forall in H |- *. intros x Hx. apply H.
    rewrite <- (firstn_skipn (S i) lines). apply in_or_app. now left. }
  induction (firstn (S i) lines) as [|x xs IH]; [reflexivity|].
  simpl in Hf. apply andb_true_iff in Hf as [Hx Hxs].
  cbn [fold_left]. unfold next_section at 2. unfold no_header in Hx.
  repeat (apply andb_true_iff in Hx as [Hx ?]).
  repeat match goal with
  | H : negb ?b = true |- _ => apply negb_true_iff in H; rewrite H
  end.
  now apply IH.
Qed.

Lemma no_header_all_unknown_witness :
  Forall (fun e => section (snd e) = Unknown)
         (@entries ascii_db [py "| 1 | Joker | $2 | +4 Mult | Start |";
                             py "Common Jokers";
                             py "| 2 | Egg | $4 | Gains $3 | Start |"]).
Proof. apply no_header_all_unknown. vm_compute. reflexivity. Defined.
End DocumentRowsClaims.

(** ** What is stored for a row *)

Section StoredFields.
Context {U : Unicode}.

Lemma tight_head_last (c : N) (g : str) :
  isspace c = false -> isspace (last g c) = false ->
  ~ In 124%N (c :: g) -> tight (c :: g) = true.
Proof.
  intros Hc Hl Hbar. unfold tight. rewrite Hc, Hl. cbn [negb andb].
  apply forallb_forall. intros x Hx.
  destruct (N.eqb x 124) eqn:E; [|reflexivity].
  apply N.eqb_eq in E. subst. contradiction.
Qed.

(** A captured text is either tight or the last space of a blank column. *)
Lemma re_text_shape (s g r : str) :
  re_text s = Some (g, r) ->
  tight g = true \/ exists c, g = [c] /\ isspace c = true.
Proof.
  intros H. pose proof H as H'.
  apply re_text_Some in H' as (Hne & a & b & Ha & Hb & Hbar & E).
  revert H. unfold re_text.
  set (not_bar := fun c => negb (N.eqb c 124)).
  destruct (drop_while not_bar s) as [|x r0]; [discriminate|].
  destruct (drop_while isspace (take_while not_bar s)) as [|y g0] eqn:Eg.
  - pose proof (drop_while_nil _ _ Eg) as Hall.
    destruct (rev (take_while not_bar s)) as [|c t] eqn:Er; [discriminate|].
    intros H. injection H as <- _. right. exists c. split; [reflexivity|].
    rewrite forallb_forall in Hall. apply Hall. apply in_rev. rewrite Er. now left.
  - intros H. injection H as <- _. left.
    pose proof (drop_while_head _ _ Eg) as Hy.
    change (rev g0 ++ [y]) with (rev (y :: g0)) in *.
    pose proof (take_drop_while isspace (rev (y :: g0))) as Hr.
    destruct (drop_while isspace (rev (y :: g0))) as [|z t] eqn:Ed.
    + exfalso. apply drop_while_nil in Ed. rewrite forallb_forall in Ed.
      specialize (Ed y). rewrite Hy in Ed.
      assert (In y (rev (y :: g0))) by (apply -> in_rev; now left). auto.
    + pose proof (drop_while_head _ _ Ed) as Hz.
      (* [rev (z :: t)] starts with [y] and ends with [z] *)
      assert (Eyg : y :: g0 = rev (z :: t) ++ rev (take_while isspace (rev (y :: g0)))).
      { rewrite <- rev_app_distr, Hr. now rewrite rev_involutive. }
      destruct (rev (z :: t)) as [|h g] eqn:Erev.
      { apply (f_equal (@length N)) in Erev. rewrite length_rev in Erev. discriminate. }
      simpl in Eyg. injection Eyg as <- Eg0.
      apply tight_head_last; [exact Hy | |].
      * destruct (rev_head_last g y) as [t' Ht'].
        assert (Ez : rev (y :: g) = z :: t) by (rewrite <- Erev; now rewrite rev_involutive).
        rewrite Ht' in Ez. injection Ez as -> _. exact Hz.
      * intros Hin. apply Hbar. apply in_or_app. right. apply in_or_app. now left.
Qed.

Lemma strip_tight (g : str) : tight g = true -> strip g = g.
Proof.
  destruct g as [|c g]; [discriminate|]. unfold tight, strip.
  intros H. apply andb_true_iff in H as [H _]. apply andb_true_iff in H as [Hc Hl].
  apply negb_true_iff in Hc, Hl.
  cbn [drop_while]. rewrite Hc.
  destruct (rev_head_last g c) as [t Ht]. rewrite Ht. cbn [drop_while]. rewrite Hl.
  now rewrite <- Ht, rev_involutive.
Qed.

Lemma strip_space (c : N) : isspace c = true -> strip [c] = [].
Proof. intros H. unfold strip. simpl. now rewrite H. Qed.

Lemma strip_captured (s g r : str) :
  re_text s = Some (g, r) -> strip g = [] \/ (strip g = g /\ tight g = true).
Proof.
  intros H. apply re_text_shape in H as [H|(c & -> & H)].
  - right. split; [now apply strip_tight | assumption].
  - left. now apply strip_space.
Qed.

Lemma row_match_captured (line num name cost effect unlock : str) :
  row_match line = Some (num, name, cost, effect, unlock) ->
  (strip name = [] \/ (strip name = name /\ tight name = true))
  /\ (strip effect = [] \/ (strip effect = effect /\ tight effect = true))
  /\ (strip unlock = [] \/ (strip unlock = unlock /\ tight unlock = true)).
Proof.
  unfold row_match.
  destruct (expect 124 line) as [s0|]; [|discriminate].
  destruct (re_digits (drop_while isspace s0)) as [[num' s1]|]; [|discriminate].
  destruct (re_text s1) as [[name' s2]|] eqn:E2; [|discriminate].
  destruct (expect 36 (drop_while isspace s2)) as [s3|]; [|discriminate].
  destruct (re_digits s3) as [[cost' s4]|]; [|discriminate].
  destruct (re_text s4) as [[effect' s5]|] eqn:E5; [|discriminate].
  destruct (re_text s5) as [[unlock' s6]|] eqn:E6; [|discriminate].
  intros H. injection H as <- <- <- <- <-.
  repeat split; eapply strip_captured; eassumption.
Qed.
End StoredFields.

Section StoredFieldsClaims.
Import MissingJokersAnalysis.

(** X10.  What the scripts store for a row is normalised: the name, the
    effect and the unlock text are each either empty (the column was
    blank) or a text without bar and without white space at either end,
    equal to what the pattern captured; the number and the cost are
    non-empty runs of decimal digits.  The same holds of every key of the
    dictionary of [find_missing.py]. *)
Theorem stored_fields_normalised (U : Unicode) (lines : list str) :
  Forall (fun e =>
            (fst e = [] \/ tight (fst e) = true)
            /\ (effect (snd e) = [] \/ tight (effect (snd e)) = true)
            /\ (unlock (snd e) = [] \/ tight (unlock (snd e)) = true)
            /\ decimal (num (snd e)) = true /\ decimal (cost (snd e)) = true)
         (entries lines)
  /\ Forall (fun k => k = [] \/ tight k = true) (keys (joker_details lines))
  /\ Forall (fun k => k = [] \/ tight k = true) (keys (FindMissing.joker_details lines)).
Proof.
  assert (He : Forall (fun e =>
            (fst e = [] \/ tight (fst e) = true)
            /\ (effect (snd e) = [] \/ tight (effect (snd e)) = true)
            /\ (unlock (snd e) = [] \/ tight (unlock (snd e)) = true)
            /\ decimal (num (snd e)) = true /\ decimal (cost (snd e)) = true)
         (entries lines)).
  { apply Forall_forall. intros e He.
    apply entries_In in He as (i & l & g & _ & Hm & ->).
    destruct g as [[[[n name] c] eff] unl]. cbn.
    pose proof (row_match_captured _ Hm) as (H1 & H2 & H3).
    apply row_match_columns in Hm as (r & _ & _ & _ & _ & _ & _ & _ & Hn & Hc & _).
    repeat split; try assumption.
    - destruct H1 as [->|[-> ?]]; auto.
    - destruct H2 as [->|[-> ?]]; auto.
    - destruct H3 as [->|[-> ?]]; auto. }
  assert (Hk : Forall (fun k => k = [] \/ tight k = true) (keys (joker_details lines))).
  { apply Forall_forall. intros k Hin.
    rewrite keys_joker_details, In_distinct in Hin.
    apply in_map_iff in Hin as (e & <- & Hin).
    rewrite Forall_forall in He. now apply He in Hin. }
  split; [exact He|]. split; [exact Hk|]. now rewrite same_keys.
Qed.

(** X11.  For every name of the dictionary of [missing_jokers_analysis.py]
    the lookup of line 109, the first element of the group of the name,
    exists and is the first row of that name in the document. *)
Theorem first_row_lookup (U : Unicode) (lines : list str) (name : str) :
  In name (keys (joker_details lines)) ->
  exists d g pre post,
    dict_get name (joker_details lines) = Some (d :: g)
    /\ entries lines = pre ++ (name, d) :: post
    /\ ~ In name (map fst pre).
Proof.
  rewrite keys_joker_details, In_distinct, joker_details_grouped. intros Hin.
  assert (Hsplit : exists pre d post,
             entries lines = pre ++ (name, d) :: post /\ ~ In name (map fst pre)).
  { induction (entries lines) as [|[k v] es IH]; [contradiction|].
    destruct (str_eqb k name) eqn:E.
    - apply str_eqb_eq in E. subst. exists [], v, es. split; [reflexivity | tauto].
    - apply str_eqb_neq in E. destruct Hin as [Hk|Hin]; [contradiction|].
      destruct (IH Hin) as (pre & d & post & -> & Hpre).
      exists ((k, v) :: pre), d, post. split; [reflexivity|].
      simpl. tauto. }
  destruct Hsplit as (pre & d & post & Esplit & Hpre).
  exists d, (occurrences name post), pre, post.
  split; [|split; assumption].
  unfold grouped. rewrite dict_get_tabulate by (now rewrite In_distinct).
  f_equal. rewrite Esplit. unfold occurrences.
  rewrite filter_app, map_app. cbn [filter fst]. rewrite str_eqb_refl. cbn [map snd].
  fold (occurrences name pre). now rewrite occurrences_absent.
Qed.

Lemma first_row_lookup_witness :
  let lines := [ py "# Common Jokers";
                 py "| 1 | Foo | $2 | +4 Mult | Start |";
                 py "# Rare Jokers";
                 py "| 2 | Foo | $8 | X2 Mult | Start |" ] in
  exists d g pre post,
    dict_get (py "Foo") (@joker_details ascii_db lines) = Some (d :: g)
    /\ @entries ascii_db lines = pre ++ (py "Foo", d) :: post
    /\ ~ In (py "Foo") (map fst pre).
Proof.
  intros lines. apply first_row_lookup. vm_compute. left. reflexivity.
Defined.
End StoredFieldsClaims.

(** ** [find_missing.py]: the dictionary and the run *)

Lemma dict_get_set (V : Type) (k k' : str) (v : V) (d : dict V) :
  dict_get k (dict_set k' v d) = if str_eqb k k' then Some v else dict_get k d.
Proof.
  induction d as [|[k0 v0] d IH]; simpl.
  - reflexivity.
  - destruct (str_eqb k' k0) eqn:E0; simpl.
    + apply str_eqb_eq in E0. subst k0. now destruct (str_eqb k k').
    + rewrite IH. destruct (str_eqb k k0) eqn:E1; [|reflexivity].
      apply str_eqb_eq in E1. subst k0.
      destruct (str_eqb k k') eqn:E2; [|reflexivity].
      apply str_eqb_eq in E2. subst k'. rewrite str_eqb_refl in E0. discriminate.
Qed.

(** After a run of assignments the value of a key is the last one assigned
    to it. *)
Lemma dict_get_assignments (V : Type) (es : list (str * V)) (d : dict V) (k : str) :
  dict_get k (fold_left (fun d e => dict_set (fst e) (snd e) d) es d)
  = match find (fun e => str_eqb (fst e) k) (rev es) with
    | Some e => Some (snd e)
    | None => dict_get k d
    end.
Proof.
  revert d; induction es as [|[k' v] es IH] using rev_ind; intros d; [reflexivity|].
  rewrite fold_left_app, rev_app_distr. cbn [fold_left rev app find fst snd].
  rewrite dict_get_set, (str_eqb_sym k k').
  destruct (str_eqb k' k); [reflexivity | apply IH].
Qed.

Section FindMissingFacts.
Import FindMissing.
Context {U : Unicode}.

Lemma joker_details_assignments (lines : list str) (i : nat) (d : dict detail) :
  fold_left loop_body (enumerate i lines) d
  = fold_left (fun d e => dict_set (fst e) (snd e) d) (found_rows lines) d.
Proof.
  revert i d; induction lines as [|l lines IH]; intros i d; [reflexivity|].
  change (enumerate i (l :: lines)) with ((i, l) :: enumerate (S i) lines).
  unfold found_rows. cbn [fold_left flat_map]. rewrite fold_left_app.
  fold (found_rows lines). rewrite IH. f_equal.
  unfold loop_body.
  destruct (row_match l) as [[[[[num name] cost] effect] unlock]|]; reflexivity.
Qed.

Lemma print_details_block (jd : dict detail) (name : str) :
  print_details jd name tt = (details_block jd name, Ok tt).
Proof.
  unfold print_details, details_block. destruct (dict_get name jd); reflexivity.
Qed.

Lemma print_all_details (jd : dict detail) (names : list str) :
  for_each names (print_details jd) tt = (concat (map (details_block jd) names), Ok tt).
Proof.
  induction names as [|n names IH]; [reflexivity|].
  cbn [for_each map concat]. rewrite print_details_block. unfold bind.
  now rewrite IH.
Qed.
End FindMissingFacts.

(** ** The order of the printed names *)

Lemma str_leb_total (a b : str) : str_leb a b = false -> str_leb b a = true.
Proof.
  revert b; induction a as [|x a IH]; intros [|y b]; simpl; try discriminate; auto.
  destruct (N.ltb_spec x y), (N.ltb_spec y x); try discriminate; try lia; auto.
Qed.

Lemma insert_sorted_perm (x : str) (l : list str) : Permutation (x :: l) (insert_sorted x l).
Proof.
  induction l as [|y l IH]; simpl; [reflexivity|].
  destruct (str_leb x y); [reflexivity|].
  rewrite perm_swap. now constructor.
Qed.

Lemma sorted_perm (l : list str) : Permutation l (sorted l).
Proof.
  induction l as [|x l IH]; simpl; [constructor|].
  rewrite <- insert_sorted_perm. now constructor.
Qed.

Lemma insert_sorted_Sorted (x : str) (l : list str) :
  Sorted (fun a b => str_leb a b = true) l ->
  Sorted (fun a b => str_leb a b = true) (insert_sorted x l).
Proof.
  induction l as [|y l IH]; simpl; intros H; [repeat constructor|].
  destruct (str_leb x y) eqn:E.
  - constructor; [assumption | now constructor].
  - inversion H as [|? ? Hs Hd]; subst. constructor; [now apply IH|].
    destruct l as [|z l]; simpl.
    + constructor. now apply str_leb_total.
    + inversion Hd; subst. destruct (str_leb x z); constructor;
        [now apply str_leb_total | assumption].
Qed.

Lemma sorted_Sorted (l : list str) : Sorted (fun a b => str_leb a b = true) (sorted l).
Proof.
  induction l as [|x l IH]; simpl; [constructor | now apply insert_sorted_Sorted].
Qed.

Section FindMissingRun.
Import FindMissing.

(** X12.  In [find_missing.py] the details kept for a name are those of
    the last row of that name in the document: a later row of the same
    name overwrites the earlier one; a name without a row has no details. *)
Theorem last_row_wins (U : Unicode) (lines : list str) (name : str) :
  dict_get name (joker_details lines)
  = option_map snd (find (fun e => str_eqb (fst e) name) (rev (found_rows lines))).
Proof.
  unfold joker_details. rewrite joker_details_assignments, dict_get_assignments.
  now destruct (find _ _).
Qed.

(** X13.  When the macro is found a run of [find_missing.py] completes
    without error.  It prints the three totals, a blank line, a title and
    a rule, then for each missing name, in the order [sorted] gives, the
    five lines of its block; every such name has details, so no block is
    empty and the lookup of line 74 cannot fail. *)
Theorem find_missing_completes (U : Unicode) (content : str) (impl lines : list str) :
  implemented content = Some impl ->
  let jd := joker_details lines in
  let missing := MissingJokersAnalysis.missing_names
                   (MissingJokersAnalysis.implemented_set impl)
                   (MissingJokersAnalysis.joker_details lines) in
  main content lines
  = ([ py "Total in JOKERS.md: " ++ str_of_nat (length jd);
       py "Total implemented: " ++ str_of_nat (length impl);
       py "Missing: " ++ str_of_nat (length missing);
       [];
       py "Missing jokers with details:";
       repeat 61%N 80 ]
     ++ concat (map (details_block jd) (sorted missing)),
     Ok tt)
  /\ (forall name, In name (sorted missing) ->
        In name missing /\ exists d, dict_get name jd = Some d).
Proof.
  intros H jd missing. split.
  - unfold main. rewrite H. cbn [option_map].
    rewrite check_names_missing, bind_ret. fold jd. fold missing.
    cbn [load]. unfold bind at 1. unfold print at 1.
    rewrite bind_ret.
    unfold bind, print. rewrite print_all_details. reflexivity.
  - intros name Hin.
    assert (Hm : In name missing).
    { eapply Permutation_in; [symmetry; apply sorted_perm | exact Hin]. }
    split; [exact Hm|].
    unfold missing in Hm. apply missing_names_In in Hm as [Hk _].
    rewrite <- same_keys in Hk. fold jd in Hk.
    apply dict_mem_In in Hk. unfold dict_mem in Hk.
    destruct (dict_get name jd) as [d|]; [now exists d | discriminate].
Qed.

Lemma find_missing_completes_witness :
  outcome (@main ascii_db (py "make_jokers!(TheJoker);")
                 [py "| 1 | Joker | $2 | +4 Mult | Start |";
                  py "| 2 | Egg | $4 | Gains $3 | Start |"])
  = Ok tt.
Proof.
  assert (H : implemented (py "make_jokers!(TheJoker);") = Some [py "TheJoker"])
    by (vm_compute; reflexivity).
  pose proof (proj1 (@find_missing_completes ascii_db _ _
                       [py "| 1 | Joker | $2 | +4 Mult | Start |";
                        py "| 2 | Egg | $4 | Gains $3 | Start |"] H)) as E.
  cbv zeta in E. rewrite E. reflexivity.
Defined.
End FindMissingRun.

Section PrintedOrder.
Import MissingJokersAnalysis.

(** X14.  The names whose details the scripts print are the missing names,
    each once, in ascending order of their code points; the duplicated
    names that [missing_jokers_analysis.py] lists are ordered the same
    way. *)
Theorem printed_names_ordered (U : Unicode) (impl lines : list str) :
  let missing := missing_names (implemented_set impl) (joker_details lines) in
  let duplicated := keys (duplicates (joker_details lines)) in
  Sorted (fun a b => str_leb a b = true) (sorted missing)
  /\ Permutation missing (sorted missing)
  /\ NoDup (sorted missing)
  /\ Sorted (fun a b => str_leb a b = true) (sorted duplicated)
  /\ Permutation duplicated (sorted duplicated).
Proof.
  intros missing duplicated.
  split; [apply sorted_Sorted|].
  split; [apply sorted_perm|].
  split; [|split; [apply sorted_Sorted | apply sorted_perm]].
  eapply Permutation_NoDup; [apply sorted_perm | apply NoDup_missing_names].
Qed.
End PrintedOrder.

(** ** [missing_jokers_analysis.py]: the run *)

Lemma dict_get_In (V : Type) (d : dict V) (k : str) (v : V) :
  NoDup (keys d) -> In (k, v) d -> dict_get k d = Some v.
Proof.
  induction d as [|[k' v'] d IH]; simpl; [tauto|].
  intros Hnd. apply NoDup_cons_iff in Hnd as [Hk Hnd].
  intros [E|Hin].
  - injection E as -> ->. now rewrite str_eqb_refl.
  - destruct (str_eqb k k') eqn:E; [|now apply IH].
    apply str_eqb_eq in E. subst k'. exfalso. apply Hk.
    apply in_map_iff. now exists (k, v).
Qed.

(** Dropping entries of a dictionary keeps its keys distinct. *)
Lemma keys_filter_NoDup (V : Type) (keep : str * V -> bool) (d : dict V) :
  NoDup (keys d) -> NoDup (keys (filter keep d)).
Proof.
  unfold keys. induction d as [|kv d IH]; intros Hnd; [constructor|].
  cbn [map] in Hnd. apply NoDup_cons_iff in Hnd as [Hfresh Hrest].
  cbn [filter]. destruct (keep kv); [|now apply IH].
  cbn [map]. constructor; [|now apply IH].
  intros Hin. apply Hfresh. apply in_map_iff in Hin as (kv' & E & Hkv').
  apply filter_In in Hkv' as [Hkv' _]. apply in_map_iff. now exists kv'.
Qed.

Section AnalysisRun.
Import MissingJokersAnalysis MissingJokersAnalysisMain.
Context {U : Unicode}.

Lemma analysis_check_name (iset : list str) (n : str) (acc : list str) :
  check_name (Some iset) n acc
  = ret (if negb (mem (lower (to_camel_case n)) iset) then acc ++ [n] else acc).
Proof. unfold check_name, load. now rewrite bind_ret. Qed.

Lemma analysis_check_names (iset : list str) (names acc : list str) :
  for_each names (check_name (Some iset)) acc
  = ret (acc ++ filter (fun n => negb (mem (lower (to_camel_case n)) iset)) names).
Proof.
  revert acc; induction names as [|n names IH]; intros acc; cbn [for_each filter].
  - now rewrite app_nil_r.
  - rewrite analysis_check_name, bind_ret, IH.
    destruct (negb (mem (lower (to_camel_case n)) iset)); [|reflexivity].
    now rewrite <- app_assoc.
Qed.

Lemma print_entries (es : list detail) :
  for_each es print_entry tt = (map entry_line es, Ok tt).
Proof.
  induction es as [|e es IH]; [reflexivity|].
  cbn [for_each map]. unfold print_entry at 1, print, bind. now rewrite IH.
Qed.

Lemma print_duplicate_block (dups : dict (list detail)) (name : str) (rows : list detail) :
  dict_get name dups = Some rows ->
  print_duplicate dups name tt = (duplicate_block name rows, Ok tt).
Proof.
  intros H. unfold print_duplicate. rewrite H, print_entries. reflexivity.
Qed.

Lemma print_missing_block (jd : dict (list detail)) (name : str) (rows : list detail) :
  dict_get name jd = Some rows ->
  print_missing jd name tt = (missing_block name rows, Ok tt).
Proof.
  intros H. unfold print_missing, missing_block. rewrite H.
  destruct rows; reflexivity.
Qed.

Lemma print_blocks (A : Type) (body : str -> unit -> script unit)
      (block : str -> list str) (names : list str) :
  (forall n, In n names -> body n tt = (block n, Ok tt)) ->
  for_each names body tt = (concat (map block names), Ok tt).
Proof.
  induction names as [|n names IH]; intros H; [reflexivity|].
  cbn [for_each map concat]. rewrite (H n (or_introl eq_refl)). unfold bind.
  rewrite IH; [reflexivity|]. intros m Hm. apply H. now right.
Qed.

Lemma duplicates_get (lines : list str) (name : str) :
  In name (keys (duplicates (joker_details lines))) ->
  dict_get name (duplicates (joker_details lines))
  = Some (occurrences name (entries lines)).
Proof.
  intros H. apply dict_get_In.
  - unfold duplicates. apply keys_filter_NoDup.
    rewrite keys_joker_details. apply NoDup_distinct.
  - rewrite joker_details_grouped in *. apply duplicates_In.
    apply duplicates_keys in H.
    repeat split.
    + unfold count_name in H.
      destruct (filter (str_eqb name) (map fst (entries lines))) as [|x l] eqn:E;
        [simpl in H; lia|].
      assert (Hx : In x (filter (str_eqb name) (map fst (entries lines))))
        by (rewrite E; now left).
      apply filter_In in Hx as [Hx Hxn]. apply str_eqb_eq in Hxn. now subst.
    + now rewrite occurrences_length.
Qed.

Lemma joker_details_get (lines : list str) (name : str) :
  In name (keys (joker_details lines)) ->
  dict_get name (joker_details lines) = Some (occurrences name (entries lines)).
Proof.
  rewrite keys_joker_details, joker_details_grouped. intros H.
  unfold grouped. now rewrite dict_get_tabulate.
Qed.

Lemma grouped_nil (V : Type) (es : list (str * V)) : grouped es = [] <-> es = [].
Proof.
  split; [|intros ->; reflexivity].
  destruct es as [|[k v] es]; [reflexivity|]. intros H.
  assert (Hin : In k (keys (grouped ((k, v) :: es)))).
  { rewrite keys_grouped, In_distinct. now left. }
  rewrite H in Hin. contradiction.
Qed.
End AnalysisRun.

Section AnalysisRunClaims.
Import MissingJokersAnalysis MissingJokersAnalysisMain.

(** X15.  Without the registration macro a run of
    [missing_jokers_analysis.py] ends in the error of an unbound name: with
    at least one row in the document it fails on [implemented_set] before
    anything is printed, and with no row it prints the four lines of the
    title and fails on [implemented]; no total is ever printed. *)
Theorem analysis_without_macro (U : Unicode) (content : str) (lines : list str) :
  macro_match content = None ->
  (entries lines <> [] ->
     main content lines = ([], Raise (NameError "implemented_set")))
  /\ (entries lines = [] ->
     main content lines
     = ([rule; py "MISSING JOKERS ANALYSIS"; rule; []], Raise (NameError "implemented"))).
Proof.
  intros H. unfold main, implemented. rewrite H. cbn [option_map].
  rewrite joker_details_grouped. split; intros He.
  - destruct (grouped (entries lines)) as [|[k v] jd] eqn:E; [|reflexivity].
    apply (proj1 (grouped_nil (entries lines))) in E. contradiction.
  - rewrite He. reflexivity.
Qed.

Lemma analysis_without_macro_witness :
  @main ascii_db (py "pub enum Jokers {}") [py "| 1 | Joker | $2 | +4 Mult | Start |"]
  = ([], Raise (NameError "implemented_set")).
Proof.
  assert (H : macro_match (py "pub enum Jokers {}") = None) by (vm_compute; reflexivity).
  apply (proj1 (@analysis_without_macro ascii_db _
                  [py "| 1 | Joker | $2 | +4 Mult | Start |"] H)).
  vm_compute. discriminate.
Defined.

(** X16.  When the macro is found a run of [missing_jokers_analysis.py]
    completes without error.  After the title it prints the four totals;
    then, for every duplicated name in sorted order, the name and one line
    per row of that name, in document order; then, for every missing name
    in sorted order, its canonical identifier and the section, cost,
    effect and unlock text of the first row of that name; then the
    summary.  Both lookups by name succeed. *)
Theorem analysis_completes (U : Unicode) (content : str) (impl lines : list str) :
  implemented content = Some impl ->
  let es := entries lines in
  let c := report_counts impl lines in
  let missing := missing_names (implemented_set impl) (joker_details lines) in
  let duplicated := keys (duplicates (joker_details lines)) in
  main content lines
  = ([ rule; py "MISSING JOKERS ANALYSIS"; rule; [];
       py "Total implemented: " ++ str_of_nat (total_implemented c);
       py "Total unique in JOKERS.md: " ++ str_of_nat (total_unique c);
       py "Duplicates in JOKERS.md: " ++ str_of_nat (total_duplicates c);
       py "Missing from implementation: " ++ str_of_nat (total_missing c);
       [];
       rule; py "DUPLICATES IN JOKERS.MD (DOCUMENTATION ERROR)"; rule; [] ]
     ++ concat (map (fun n => duplicate_block n (occurrences n es)) (sorted duplicated))
     ++ [ rule; py "GENUINELY MISSING JOKERS FROM IMPLEMENTATION"; rule; [] ]
     ++ concat (map (fun n => missing_block n (occurrences n es)) (sorted missing))
     ++ stdout (print_summary missing),
     Ok tt)
  /\ (forall n, In n (sorted duplicated) -> 2 <= length (occurrences n es))
  /\ (forall n, In n (sorted missing) -> occurrences n es <> []).
Proof.
  intros H es c missing duplicated.
  assert (Hd : forall n, In n (sorted duplicated) -> In n duplicated).
  { intros n Hn. eapply Permutation_in; [symmetry; apply sorted_perm | exact Hn]. }
  assert (Hm : forall n, In n (sorted missing) -> In n (keys (joker_details lines))).
  { intros n Hn.
    assert (Hn' : In n missing)
      by (eapply Permutation_in; [symmetry; apply sorted_perm | exact Hn]).
    unfold missing in Hn'. now apply missing_names_In in Hn'. }
  split; [|split].
  - unfold main. rewrite H. cbn [option_map].
    rewrite analysis_check_names. cbn [app]. fold (missing_names (implemented_set impl) (joker_details lines)).
    fold missing. rewrite bind_ret.
    rewrite (@print_blocks unit (print_duplicate (duplicates (joker_details lines)))
               (fun n => duplicate_block n (occurrences n es)) (sorted duplicated))
      by (intros n Hn; apply print_duplicate_block, duplicates_get, Hd, Hn).
    rewrite (@print_blocks unit (print_missing (joker_details lines))
               (fun n => missing_block n (occurrences n es)) (sorted missing))
      by (intros n Hn; apply print_missing_block, joker_details_get, Hm, Hn).
    cbn [load]. unfold bind at 1 2 3 4. unfold print at 1 2 3 4. cbn [app].
    rewrite bind_ret.
    unfold bind at 1 2 3 4 5 6 7 8 9 10. unfold print at 1 2 3 4 5 6 7 8 9.
    unfold bind at 1 2 3 4 5. unfold print at 1 2 3 4.
    destruct (print_summary missing) as [out r] eqn:Es.
    assert (Er : r = Ok tt).
    { unfold print_summary, bind, print in Es. now injection Es as _ <-. }
    subst r. cbn [stdout fst]. reflexivity.
  - intros n Hn. apply Hd in Hn. unfold duplicated in Hn.
    rewrite joker_details_grouped in Hn. apply duplicates_keys in Hn.
    now rewrite occurrences_length.
  - intros n Hn. apply Hm in Hn.
    rewrite keys_joker_details, In_distinct in Hn.
    apply in_map_iff in Hn as ([k d] & <- & Hin). simpl.
    intros E. apply occurrences_In in Hin. fold es in E. unfold es in E.
    rewrite E in Hin. contradiction.
Qed.

Lemma analysis_completes_witness :
  outcome (@main ascii_db (py "make_jokers!(TheJoker);")
                 [py "| 1 | Joker | $2 | +4 Mult | Start |";
                  py "| 2 | Egg | $4 | Gains $3 | Start |"])
  = Ok tt.
Proof.
  assert (H : implemented (py "make_jokers!(TheJoker);") = Some [py "TheJoker"])
    by (vm_compute; reflexivity).
  pose proof (proj1 (@analysis_completes ascii_db _ _
                       [py "| 1 | Joker | $2 | +4 Mult | Start |";
                        py "| 2 | Egg | $4 | Gains $3 | Start |"] H)) as E.
  cbv zeta in E. rewrite E. reflexivity.
Defined.
End AnalysisRunClaims.

(** ** The canonicalizer: how names compose *)

Section Composition.
Context {U : Unicode}.

Lemma replace_app (old : N) (new a b : str) :
  replace old new (a ++ b) = replace old new a ++ replace old new b.
Proof.
  induction a as [|c a IH]; simpl; [reflexivity|]. now rewrite IH, app_assoc.
Qed.

Lemma unpunctuated_app (a b : str) :
  unpunctuated (a ++ b) = unpunctuated a ++ unpunctuated b.
Proof. unfold unpunctuated. now rewrite !replace_app. Qed.

Lemma split_from_space (x y cur : str) (c : N) :
  isspace c = true ->
  split_from cur (x ++ c :: y) = split_from cur x ++ split y.
Proof.
  intros Hc. revert cur; induction x as [|d x IH]; intros cur.
  - cbn [app split_from]. rewrite Hc. destruct cur; reflexivity.
  - cbn [app split_from]. destruct (isspace d).
    + destruct cur; cbn [app]; now rewrite IH.
    + apply IH.
Qed.

Lemma split_blank (s cur : str) :
  blank s = true -> split_from cur s = match cur with [] => [] | _ => [rev cur] end.
Proof.
  unfold blank. revert cur; induction s as [|c s IH]; intros cur H; [reflexivity|].
  simpl in H. apply andb_true_iff in H as [Hc Hs].
  cbn [split_from]. rewrite Hc. destruct cur; now rewrite IH.
Qed.

Lemma general_rule_words (name : str) :
  general_rule name = concat (map capitalize (split (unpunctuated name))).
Proof. reflexivity. Qed.
End Composition.

(** X17.  The general rule reads a name part by part: the identifier of
    two parts joined by a space or by a hyphen is the identifier of the
    first followed by the identifier of the second, and an apostrophe or
    an exclamation mark between two parts is as if it were not there. *)
Theorem general_rule_composes (U : Unicode) (a b : str) :
  isspace 32 = true ->
  general_rule (a ++ py " " ++ b) = general_rule a ++ general_rule b
  /\ general_rule (a ++ py "-" ++ b) = general_rule a ++ general_rule b
  /\ general_rule (a ++ py "'" ++ b) = general_rule (a ++ b)
  /\ general_rule (a ++ py "!" ++ b) = general_rule (a ++ b).
Proof.
  intros H. rewrite !general_rule_words, !unpunctuated_app.
  change (unpunctuated (py " ")) with [32%N].
  change (unpunctuated (py "-")) with [32%N].
  change (unpunctuated (py "'")) with (@nil N).
  change (unpunctuated (py "!")) with (@nil N).
  cbn [app]. unfold split.
  rewrite !split_from_space by assumption. fold (split (unpunctuated a)).
  rewrite !map_app, !concat_app. repeat split; reflexivity.
Qed.

Lemma general_rule_composes_witness :
  @general_rule ascii_db (py "Riff" ++ py "-" ++ py "Raff")
  = @general_rule ascii_db (py "Riff") ++ @general_rule ascii_db (py "Raff").
Proof.
  exact (proj1 (proj2 (@general_rule_composes ascii_db (py "Riff") (py "Raff") eq_refl))).
Defined.

Section NameOfPunctuation.
Import MissingJokersAnalysis.
Context {U : Unicode}.
Hypothesis HU : ascii_compatible U.

Lemma removed_ascii (c : N) :
  (c < 128)%N ->
  removed c = ascii_isspace c || N.eqb c 39 || N.eqb c 33 || N.eqb c 45.
Proof. intros H. unfold removed. now rewrite (space_ascii HU). Qed.

Lemma override_key_kept (name : str) :
  In name override_keys -> forallb removed name = false.
Proof.
  unfold override_keys, override_table. cbn [map fst In].
  intros H.
  repeat (destruct H as [<-|H];
          [ cbn [py seance_key map list_ascii_of_string app forallb];
            rewrite removed_ascii by (vm_compute; reflexivity); reflexivity |]).
  contradiction.
Qed.

Lemma unpunctuated_blank (name : str) :
  forallb removed name = true -> blank (unpunctuated name) = true.
Proof.
  unfold unpunctuated, blank. change (py " ") with [32%N].
  rewrite replace_one, !replace_delete, filter_filter.
  induction name as [|c name IH]; [reflexivity|].
  cbn [forallb]. intros H. apply andb_true_iff in H as [Hc Hn].
  cbn [filter].
  destruct (N.eqb c 39) eqn:E1; cbn [negb andb]; [now apply IH|].
  destruct (N.eqb c 33) eqn:E2; cbn [negb andb]; [now apply IH|].
  cbn [map forallb]. rewrite (IH Hn), andb_true_r.
  destruct (N.eqb c 45) eqn:E3.
  - rewrite (space_ascii HU) by lia. reflexivity.
  - unfold removed in Hc. now rewrite E1, E2, E3, !orb_false_r in Hc.
Qed.

(** A name made of removed characters only has the empty identifier. *)
Lemma punctuation_name_empty (name : str) :
  forallb removed name = true -> to_camel_case name = [].
Proof.
  intros H. rewrite to_camel_case_general.
  - rewrite general_rule_words. unfold split.
    now rewrite split_blank by (now apply unpunctuated_blank).
  - intros Hk. apply override_key_kept in Hk. congruence.
Qed.

Lemma lower_identifier_nonempty (j : str) : ident_shape j = true -> lower j <> [].
Proof.
  intros H. destruct j as [|c r]; [discriminate|].
  simpl in H. apply andb_true_iff in H as [Hc Hr].
  rewrite (lower_ascii_text HU).
  - discriminate.
  - constructor.
    + apply is_alnum_ascii. now apply is_upper_alnum.
    + apply Forall_forall. intros x Hx. rewrite forallb_forall in Hr.
      apply is_alnum_ascii. now apply Hr.
Qed.
End NameOfPunctuation.

Section NameOfPunctuationClaim.
Import MissingJokersAnalysis.

(** X18.  A row whose name is empty (a blank column) or consists only of
    apostrophes, exclamation marks, hyphens and white space has the empty
    canonical identifier and is reported missing whatever is implemented. *)
Theorem punctuation_name_missing (U : Unicode) (content : str) (impl lines : list str)
        (name : str) :
  ascii_compatible U ->
  implemented content = Some impl ->
  In name (keys (joker_details lines)) ->
  forallb removed name = true ->
  to_camel_case name = []
  /\ In name (missing_names (implemented_set impl) (joker_details lines)).
Proof.
  intros HU Himpl Hk Hname.
  pose proof (punctuation_name_empty HU name Hname) as Hc.
  split; [exact Hc|].
  apply missing_names_In. split; [exact Hk|].
  rewrite Hc. unfold implemented_set. intros Hin.
  apply in_map_iff in Hin as (j & Ej & Hj).
  unfold implemented in Himpl.
  destruct (macro_match content) as [mc|]; [|discriminate].
  injection Himpl as <-.
  pose proof (implemented_of_shape mc) as Hs.
  rewrite Forall_forall in Hs. specialize (Hs j Hj).
  now apply (lower_identifier_nonempty HU j Hs).
Qed.

Lemma punctuation_name_missing_witness :
  In [] (@missing_names ascii_db (@implemented_set ascii_db [py "Egg"])
           (@joker_details ascii_db [py "| 1 |  | $2 | +4 Mult | Start |"])).
Proof.
  assert (Hi : implemented (py "make_jokers!(Egg);") = Some [py "Egg"])
    by (vm_compute; reflexivity).
  refine (proj2 (@punctuation_name_missing ascii_db _ _
                   [py "| 1 |  | $2 | +4 Mult | Start |"] []
                   ascii_db_compatible Hi _ eq_refl)).
  vm_compute. left. reflexivity.
Defined.

(** X19.  Which names are missing depends on the implemented identifiers
    only as a set: implementing more never makes a name missing, and the
    order and the repetitions of the identifiers in the macro do not
    matter. *)
Theorem missing_antitone (U : Unicode) (impl impl' lines : list str) :
  incl impl impl' ->
  incl (missing_names (implemented_set impl') (joker_details lines))
       (missing_names (implemented_set impl) (joker_details lines))
  /\ (incl impl' impl ->
      missing_names (implemented_set impl') (joker_details lines)
      = missing_names (implemented_set impl) (joker_details lines)).
Proof.
  intros Hincl.
  assert (Hmem : forall a b, incl a b -> forall x,
                 In x (implemented_set a) -> In x (implemented_set b)).
  { intros a b Hab x Hx. unfold implemented_set in *.
    apply in_map_iff in Hx as (j & <- & Hj). apply in_map. now apply Hab. }
  split.
  - intros n Hn. apply missing_names_In in Hn as [Hk Hn].
    apply missing_names_In. split; [exact Hk|]. intros Hin. apply Hn.
    now apply (Hmem impl impl').
  - intros Hincl'. unfold missing_names. apply filter_ext. intros n. f_equal.
    destruct (mem (lower (to_camel_case n)) (implemented_set impl)) eqn:E.
    + apply mem_In. apply mem_In in E. now apply (Hmem impl impl').
    + apply mem_not_In. apply mem_not_In in E. intros Hin. apply E.
      now apply (Hmem impl' impl).
Qed.

Lemma missing_antitone_witness :
  incl (@missing_names ascii_db (@implemented_set ascii_db [py "Egg"; py "TheJoker"])
          (@joker_details ascii_db [py "| 1 | Joker | $2 | +4 Mult | Start |"]))
       (@missing_names ascii_db (@implemented_set ascii_db [py "Egg"])
          (@joker_details ascii_db [py "| 1 | Joker | $2 | +4 Mult | Start |"])).
Proof.
  refine (proj1 (@missing_antitone ascii_db [py "Egg"] [py "Egg"; py "TheJoker"] _ _)).
  intros x [<-|[]]. left. reflexivity.
Defined.

(** X20.  The two scripts agree: they file the rows under the same names
    in the same order, and the loop of line 61 of [find_missing.py] ends
    with the list of missing names of [missing_jokers_analysis.py]. *)
Theorem scripts_agree (U : Unicode) (impl lines : list str) :
  keys (FindMissing.joker_details lines) = keys (joker_details lines)
  /\ for_each (keys (FindMissing.joker_details lines))
              (FindMissing.check_name (Some (FindMissing.implemented_lower impl))) []
     = ret (missing_names (implemented_set impl) (joker_details lines)).
Proof. split; [apply same_keys | apply check_names_missing]. Qed.
End NameOfPunctuationClaim.

(** ** The canonicalizer: the letter case of a display name *)

Lemma tolower_eqb (c k : N) :
  is_letter k = false -> N.eqb (ascii_tolower c) k = N.eqb c k.
Proof.
  intros Hk. unfold ascii_tolower. destruct (is_upper c) eqn:Eu; [|reflexivity].
  unfold is_letter, is_upper, is_lower in Hk.
  apply orb_false_iff in Hk as [H1 H2]. apply andb_false_iff in H1, H2.
  destruct (N.eqb_spec (c + 32) k) as [E|E], (N.eqb_spec c k) as [E'|E'];
    try reflexivity; subst; destruct H1, H2; code_points; lia.
Qed.

Lemma tolower_idem (c : N) : ascii_tolower (ascii_tolower c) = ascii_tolower c.
Proof.
  unfold ascii_tolower. destruct (is_upper c) eqn:Eu; [|now rewrite Eu].
  destruct (is_upper (c + 32)) eqn:Eu'; [code_points; lia | reflexivity].
Qed.

Lemma toupper_tolower (c : N) : ascii_toupper (ascii_tolower c) = ascii_toupper c.
Proof.
  unfold ascii_tolower, ascii_toupper.
  destruct (is_upper c) eqn:Eu.
  - assert (El : is_lower (c + 32) = true).
    { code_points. unfold is_lower. apply andb_true_iff. split; apply N.leb_le; lia. }
    assert (El' : is_lower c = false).
    { destruct (is_lower c) eqn:E; [code_points; lia | reflexivity]. }
    rewrite El, El'. lia.
  - reflexivity.
Qed.

Lemma tolower_ascii (c : N) : (c < 128)%N -> (ascii_tolower c < 128)%N.
Proof.
  intros H. unfold ascii_tolower. destruct (is_upper c) eqn:Eu; [code_points; lia | exact H].
Qed.

Lemma tolower_isspace (c : N) : ascii_isspace (ascii_tolower c) = ascii_isspace c.
Proof.
  unfold ascii_tolower. destruct (is_upper c) eqn:Eu; [|reflexivity].
  destruct (ascii_isspace (c + 32)) eqn:E1, (ascii_isspace c) eqn:E2;
    try reflexivity; code_points; lia.
Qed.

Section LetterCase.
Context {U : Unicode}.
Hypothesis HU : ascii_compatible U.

Lemma unpunctuated_tolower (s : str) :
  unpunctuated (map ascii_tolower s) = map ascii_tolower (unpunctuated s).
Proof.
  unfold unpunctuated. change (py " ") with [32%N].
  rewrite !replace_one, !replace_delete, !filter_filter.
  induction s as [|c s IH]; [reflexivity|].
  cbn [map filter]. rewrite !tolower_eqb by reflexivity.
  destruct (negb (N.eqb c 39) && negb (N.eqb c 33)); [|exact IH].
  cbn [map]. rewrite IH, tolower_eqb by reflexivity.
  destruct (N.eqb c 45); reflexivity.
Qed.

Lemma unpunctuated_ascii (s : str) :
  Forall (fun c => (c < 128)%N) s -> Forall (fun c => (c < 128)%N) (unpunctuated s).
Proof.
  unfold unpunctuated. change (py " ") with [32%N].
  rewrite !replace_one, !replace_delete, !filter_filter.
  induction s as [|c s IH]; intros H; [constructor|].
  apply Forall_cons_iff in H as [Hc Hs]. cbn [filter].
  destruct (negb (N.eqb c 39) && negb (N.eqb c 33)); [|now apply IH].
  cbn [map]. constructor; [|now apply IH].
  destruct (N.eqb c 45); [lia | exact Hc].
Qed.

Lemma split_from_tolower (s cur : str) :
  Forall (fun c => (c < 128)%N) s ->
  split_from (map ascii_tolower cur) (map ascii_tolower s)
  = map (map ascii_tolower) (split_from cur s).
Proof.
  revert cur; induction s as [|c s IH]; intros cur H.
  - cbn [map split_from]. destruct cur as [|x cur]; [reflexivity|].
    change (map ascii_tolower (x :: cur)) with (map ascii_tolower (x :: cur)).
    cbn [map]. change (ascii_tolower x :: map ascii_tolower cur)
      with (map ascii_tolower (x :: cur)). now rewrite <- map_rev.
  - apply Forall_cons_iff in H as [Hc Hs]. cbn [map split_from].
    rewrite (space_ascii HU) by now apply tolower_ascii.
    rewrite tolower_isspace, <- (space_ascii HU) by assumption.
    destruct (isspace c).
    + destruct cur as [|x cur].
      * cbn [map]. apply (IH [] Hs).
      * cbn [map]. change (ascii_tolower x :: map ascii_tolower cur)
          with (map ascii_tolower (x :: cur)).
        rewrite <- map_rev. f_equal. apply (IH [] Hs).
    + apply (IH (c :: cur) Hs).
Qed.

Lemma capitalize_ascii (w : str) :
  Forall (fun c => (c < 128)%N) w ->
  capitalize w = match w with
                 | [] => []
                 | c :: r => ascii_toupper c :: map ascii_tolower r
                 end.
Proof.
  destruct w as [|c r]; [reflexivity|]. intros H.
  apply Forall_cons_iff in H as [Hc Hr]. cbn [capitalize].
  now rewrite (title_ascii HU), (do_lower_ascii HU) by assumption.
Qed.

Lemma capitalize_tolower (w : str) :
  Forall (fun c => (c < 128)%N) w -> capitalize (map ascii_tolower w) = capitalize w.
Proof.
  intros H. rewrite !capitalize_ascii; try assumption.
  - destruct w as [|c r]; [reflexivity|]. cbn [map].
    rewrite toupper_tolower, map_map. f_equal. apply map_ext. intros x. apply tolower_idem.
  - rewrite Forall_forall in H |- *. intros x Hx.
    apply in_map_iff in Hx as (y & <- & Hy). apply tolower_ascii. now apply H.
Qed.

Lemma split_ascii (s : str) :
  Forall (fun c => (c < 128)%N) s -> Forall (Forall (fun c => (c < 128)%N)) (split s).
Proof.
  intros H. apply Forall_forall. intros w Hw. apply Forall_forall. intros c Hc.
  assert (Hin : In c (concat (split s))) by (apply in_concat; eauto).
  rewrite (proj2 (split_words s)) in Hin. apply filter_In in Hin as [Hin _].
  rewrite Forall_forall in H. now apply H.
Qed.

Lemma general_rule_tolower (name : str) :
  Forall (fun c => (c < 128)%N) name ->
  general_rule (map ascii_tolower name) = general_rule name.
Proof.
  intros H. rewrite !general_rule_words, unpunctuated_tolower. unfold split.
  pose proof (@split_from_tolower (unpunctuated name) [] (unpunctuated_ascii H)) as E.
  change (map ascii_tolower []) with (@nil N) in E. rewrite E. clear E.
  fold (split (unpunctuated name)).
  pose proof (split_ascii (unpunctuated_ascii H)) as Hw.
  induction (split (unpunctuated name)) as [|w ws IH]; [reflexivity|].
  apply Forall_cons_iff in Hw as [Hw Hws]. cbn [map concat].
  now rewrite capitalize_tolower, IH.
Qed.

Lemma same_ignoring_case_tolower (a b : str) :
  Forall (fun c => (c < 128)%N) a -> same_ignoring_case a b = true ->
  Forall (fun c => (c < 128)%N) b /\ map ascii_tolower a = map ascii_tolower b.
Proof.
  revert b; induction a as [|x a IH]; intros [|y b] Ha H; simpl in H; try discriminate.
  - split; [constructor | reflexivity].
  - apply Forall_cons_iff in Ha as [Hx Ha].
    apply andb_true_iff in H as [Hxy H].
    destruct (IH b Ha H) as [Hb E].
    apply orb_true_iff in Hxy as [Hxy|Hxy].
    + apply N.eqb_eq in Hxy. subst y. split; [now constructor|]. simpl. now rewrite E.
    + apply andb_true_iff in Hxy as [Hl Hxy]. apply andb_true_iff in Hl as [_ Hly].
      apply N.eqb_eq in Hxy. split.
      * constructor; [now apply is_letter_ascii | assumption].
      * simpl. now rewrite E, Hxy.
Qed.
End LetterCase.

(** X21.  Outside the override table the letter case of an ASCII display
    name does not matter: two names that differ in the case of letters
    only have the same canonical identifier. *)
Theorem display_case_irrelevant (U : Unicode) (a b : str) :
  ascii_compatible U ->
  forallb is_ascii a = true ->
  same_ignoring_case a b = true ->
  ~ In a override_keys -> ~ In b override_keys ->
  to_camel_case a = to_camel_case b.
Proof.
  intros HU Ha Hsame Hka Hkb.
  assert (Ha' : Forall (fun c => (c < 128)%N) a).
  { apply Forall_forall. intros c Hc. rewrite forallb_forall in Ha.
    apply N.ltb_lt. now apply Ha. }
  destruct (@same_ignoring_case_tolower a b Ha' Hsame) as [Hb E].
  rewrite !to_camel_case_general by assumption.
  rewrite <- (general_rule_tolower HU Ha'), <- (general_rule_tolower HU Hb).
  now rewrite E.
Qed.

Lemma display_case_irrelevant_witness :
  @to_camel_case ascii_db (py "HIT the road") = @to_camel_case ascii_db (py "Hit The Road").
Proof.
  apply display_case_irrelevant;
    [ exact ascii_db_compatible | reflexivity | reflexivity
    | apply mem_not_In; vm_compute; reflexivity
    | apply mem_not_In; vm_compute; reflexivity ].
Defined.

(** The keys of the override table are compared letter for letter. *)
Example override_keys_exact :
  @to_camel_case ascii_db (py "joker") = py "Joker"
  /\ @to_camel_case ascii_db (py "Joker") = py "TheJoker".
Proof. split; vm_compute; reflexivity. Qed.
